(** * crossplane-tools, package [internal/method]

    A verification development for [internal/method/method.go]: the
    method registry ([Set.Write]), the existing-method filter
    ([DefinedOutside]), the accessor/mutator generators and the
    [PortableClassItems] list-conversion generators. *)

From stdpp Require Import gmap strings list sorting.

Open Scope list_scope.

(** ** go/token and go/types, as far as the package uses them *)

Module token.

(** [token.Pos] is an integer offset into a file set. *)
Definition Pos := Z.

Record Position := {
  Filename : string;
  Offset : Z;
  Line : Z;
  Column : Z;
}.

(** A [token.FileSet] is used through its [Position] method only: the
    file set is the function from positions to their [Position]. *)
Record FileSet := { Position_ : Pos → Position }.

End token.

Module types.

(** The object of a method: [Name()] and [Pos()] are all the filter
    reads. *)
Record Func := { FuncName : string; FuncPos : token.Pos }.

Record Selection := { Obj : Func }.

(** A [types.MethodSet] is an indexed collection, accessed with [Len]
    and [At]. *)
Abbreviation MethodSet := (list Selection).

Definition Len (s : MethodSet) : nat := length s.
Definition At (s : MethodSet) (i : nat) : option Selection := s !! i.

(** A method of a named type, declared on it or promoted to it, and
    whether its receiver is a pointer. *)
Record Method := { MethodObj : Func; PointerReceiver : bool }.

(** A type, as far as method sets are concerned. *)
Inductive Type_ :=
| Named (name : string) (methods : list Method)
| Pointer (elem : Type_).

Definition NewPointer (t : Type_) : Type_ := Pointer t.

(** The method set of a named type [T] has its methods with receiver [T];
    the method set of [*T] has those with receiver [T] or [*T]; a pointer
    to a pointer has no methods. *)
Definition NewMethodSet (t : Type_) : MethodSet :=
  match t with
  | Named _ ms =>
      (λ m, {| Obj := MethodObj m |}) <$>
        filter (λ m, PointerReceiver m = false) ms
  | Pointer (Named _ ms) => (λ m, {| Obj := MethodObj m |}) <$> ms
  | Pointer (Pointer _) => []
  end.

(** A [types.Object]: the declared type name and its type. *)
Record Object := { Name : string; Type__ : Type_ }.

End types.

(** ** The filter *)

(** A [Filter] returns true if the method should be filtered. *)
Definition Filter := types.Object → string → bool.

(** The loop of [DefinedOutside]: [i] is the loop index and [n] the number
    of iterations left, [n = s.Len() - i], so that [s.At(i)] is within
    range. *)
Fixpoint DefinedOutside_loop (fs : token.FileSet) (filename : string)
    (s : types.MethodSet) (name : string) (i n : nat) : bool :=
  match n with
  | 0 => false
  | S n' =>
      match types.At s i with
      | None => false
      | Some sel =>
          let mo := types.Obj sel in
          if negb (String.eqb (types.FuncName mo) name) then
            DefinedOutside_loop fs filename s name (S i) n'
          else if negb (String.eqb
                    (token.Filename (token.Position_ fs (types.FuncPos mo)))
                    filename) then
            true
          else
            DefinedOutside_loop fs filename s name (S i) n'
      end
  end.

Definition DefinedOutside (fs : token.FileSet) (filename : string) : Filter :=
  fun o name =>
    let s := types.NewMethodSet (types.NewPointer (types.Type__ o)) in
    DefinedOutside_loop fs filename s name 0 (types.Len s).

(** The pointer-receiver method set of an object, and the file a method
    was declared in. *)
Definition pointerMethodSet (o : types.Object) : types.MethodSet :=
  types.NewMethodSet (types.NewPointer (types.Type__ o)).

Definition declaringFile (fs : token.FileSet) (sel : types.Selection) : string :=
  token.Filename (token.Position_ fs (types.FuncPos (types.Obj sel))).

Definition methodName (sel : types.Selection) : string :=
  types.FuncName (types.Obj sel).

(** ** The registry *)

(** [New] adds a method on the supplied object in the supplied file. A
    generator is Go code with effects: [W] is the state it acts on, which for
    the generators of this package is the [jen.File] alone. *)
Abbreviation New W := (W → types.Object → W).

(** A [Set] is a map of method names to the [New] functions that produce
    them. *)
Abbreviation Set_ W := (gmap string (New W)).

(** [for name := range s] yields every key of the map once, in an order the
    language leaves open: [keys] is a possible iteration order of [s]. *)
Definition range_order {W} (s : Set_ W) (keys : list string) : Prop :=
  keys ≡ₚ (map_to_list s).*1.

(** [sort.Strings] sorts in increasing order of [<] on strings, which
    compares byte by byte. The order is total and antisymmetric, so the
    sorted list does not depend on the sorting algorithm
    ([sort_Strings_unique] below). *)
Definition sort_Strings (names : list string) : list string :=
  merge_sort String.le names.

(** The second loop of [Write]. Calling [s[name]] for a name that is not a
    key calls a nil function, which panics: [None]. *)
Fixpoint Write_loop {W} (s : Set_ W) (o : types.Object) (mf : Filter)
    (names : list string) (f : W) : option W :=
  match names with
  | [] => Some f
  | name :: names' =>
      if mf o name then Write_loop s o mf names' f
      else
        match s !! name with
        | Some new => Write_loop s o mf names' (new f o)
        | None => None
        end
  end.

(** [Write] the method set for the supplied object to the supplied file,
    with the map iterated in the order [keys]. *)
Definition Write {W} (keys : list string) (s : Set_ W) (f : W)
    (o : types.Object) (mf : Filter) : option W :=
  let names := foldl (λ names name, names ++ [name]) [] keys in
  let names := sort_Strings names in
  Write_loop s o mf names f.

(** The names of a registry in increasing order, and those of them that a
    filter lets through. *)
Definition sorted_names {W} (s : Set_ W) : list string :=
  sort_Strings (map_to_list s).*1.

Definition written_names {W} (s : Set_ W) (o : types.Object) (mf : Filter)
  : list string :=
  filter (λ name, mf o name = false) (sorted_names s).

(** One call [s[name](f, o)] of a registered generator. *)
Definition invoke {W} (s : Set_ W) (o : types.Object) (f : W) (name : string) : W :=
  match s !! name with
  | Some new => new f o
  | None => f
  end.

(** A registry whose generators also record their name when they run: the
    record is the sequence of generator calls. *)
Definition traced {W} (s : Set_ W) : Set_ (W * list string) :=
  map_imap (λ name new,
    Some (λ (w : W * list string) o, (new w.1 o, w.2 ++ [name]))) s.


(** ** The code builder [jen], as far as the generators use it *)

Module jen.

(** A [jen.Statement] is a sequence of [Code] items; the builder methods
    each append one item, so [jen.Id(r).Op("*").Id(n)] is
    [[Id r; Op "*"; Id n]]. Items that take arguments keep them in the
    order given. *)
#[warnings="-register-all"]
Inductive Code :=
| Id (name : string)
| Op (op : string)
| Qual (path name : string)
| Dot (name : string)
| Func
| Range
| Return (results : list (list Code))
| Params (params : list (list Code))
| Block (statements : list (list Code))
| Call (params : list (list Code))
| Index (items : list (list Code))
| Make (args : list (list Code))
| Len (c : list Code)
| For (conditions : list (list Code))
| If (conditions : list (list Code))
| List (items : list (list Code))
| Assert (typ : list Code)
| Append (args : list (list Code))
| Comment (text : string).

Abbreviation Statement := (list Code).

(** A [jen.File] is the group of the statements added to it, in the order
    they were added. *)
Abbreviation File := (list Statement).

(** [f.Commentf(format, a...)] adds a comment with the formatted text. *)
Definition Commentf (f : File) (text : string) : File := f ++ [[Comment text]].

(** [f.Func()...] adds the statement that the chain of calls builds,
    which starts with the [func] keyword. *)
Definition AddFunc (f : File) (rest : Statement) : File := f ++ [Func :: rest].

End jen.

Module fields.

(** Modelled from the spec: the constants [NameSpec] and [NameStatus] of
    the package [internal/fields], which is not among the sources; the spec
    has the boilerplate fields conventionally named "Spec" and "Status". *)
Definition NameSpec : string := "Spec".
Definition NameStatus : string := "Status".

End fields.

Module strings.

(** [s[lo:]] and [s[:hi]] on a string. *)
Definition slice_from (s : string) (lo : nat) : string :=
  String.substring lo (String.length s - lo) s.
Definition slice_to (s : string) (hi : nat) : string :=
  String.substring 0 hi s.

(** [strings.HasSuffix]:
    [len(s) >= len(suffix) && s[len(s)-len(suffix):] == suffix]. *)
Definition HasSuffix (s suffix : string) : bool :=
  (String.length suffix <=? String.length s) &&
  String.eqb (slice_from s (String.length s - String.length suffix)) suffix.

(** [strings.TrimSuffix] returns [s] without the provided trailing suffix
    string; if [s] does not end with it, [s] is returned unchanged. *)
Definition TrimSuffix (s suffix : string) : string :=
  if HasSuffix s suffix then
    slice_to s (String.length s - String.length suffix)
  else s.

End strings.

(** ** The generators *)

Definition NewSetConditions (receiver runtime : string) : New jen.File :=
  λ f o,
    let f := jen.Commentf f ("SetConditions of this " +:+ types.Name o +:+ ".") in
    jen.AddFunc f
      [jen.Params [[jen.Id receiver; jen.Op "*"; jen.Id (types.Name o)]];
       jen.Id "SetConditions";
       jen.Params [[jen.Id "c"; jen.Op "..."; jen.Qual runtime "Condition"]];
       jen.Block [
         [jen.Id receiver; jen.Dot fields.NameStatus; jen.Dot "SetConditions";
          jen.Call [[jen.Id "c"; jen.Op "..."]]]
       ]].

Definition NewGetCondition (receiver runtime : string) : New jen.File :=
  λ f o,
    let f := jen.Commentf f ("GetCondition of this " +:+ types.Name o +:+ ".") in
    jen.AddFunc f
      [jen.Params [[jen.Id receiver; jen.Op "*"; jen.Id (types.Name o)]];
       jen.Id "GetCondition";
       jen.Params [[jen.Id "c"; jen.Op "..."; jen.Qual runtime "Condition"]];
       jen.Block [
         [jen.Id receiver; jen.Dot fields.NameStatus; jen.Dot "GetCondition";
          jen.Call [[jen.Id "c"; jen.Op "..."]]]
       ]].

Definition NewSetBindingPhase (receiver runtime : string) : New jen.File :=
  λ f o,
    let f := jen.Commentf f ("SetBindingPhase of this " +:+ types.Name o +:+ ".") in
    jen.AddFunc f
      [jen.Params [[jen.Id receiver; jen.Op "*"; jen.Id (types.Name o)]];
       jen.Id "SetBindingPhase";
       jen.Params [[jen.Id "p"; jen.Qual runtime "BindingPhase"]];
       jen.Block [
         [jen.Id receiver; jen.Dot fields.NameStatus; jen.Dot "SetBindingPhase";
          jen.Call [[jen.Id "p"]]]
       ]].

Definition NewGetBindingPhase (receiver runtime : string) : New jen.File :=
  λ f o,
    let f := jen.Commentf f ("GetBindingPhase of this " +:+ types.Name o +:+ ".") in
    jen.AddFunc f
      [jen.Params [[jen.Id receiver; jen.Op "*"; jen.Id (types.Name o)]];
       jen.Id "GetBindingPhase";
       jen.Params [];
       jen.Qual runtime "BindingPhase";
       jen.Block [
         [jen.Return [
            [jen.Id receiver; jen.Dot fields.NameStatus;
             jen.Dot "GetBindingPhase"; jen.Call []]]]
       ]].

Definition NewSetClaimReference (receiver core : string) : New jen.File :=
  λ f o,
    let f := jen.Commentf f ("SetClaimReference of this " +:+ types.Name o +:+ ".") in
    jen.AddFunc f
      [jen.Params [[jen.Id receiver; jen.Op "*"; jen.Id (types.Name o)]];
       jen.Id "SetClaimReference";
       jen.Params [[jen.Id "r"; jen.Op "*"; jen.Qual core "ObjectReference"]];
       jen.Block [
         [jen.Id receiver; jen.Dot fields.NameSpec; jen.Dot "ClaimReference";
          jen.Op "="; jen.Id "r"]
       ]].

Definition NewGetClaimReference (receiver core : string) : New jen.File :=
  λ f o,
    let f := jen.Commentf f ("GetClaimReference of this " +:+ types.Name o +:+ ".") in
    jen.AddFunc f
      [jen.Params [[jen.Id receiver; jen.Op "*"; jen.Id (types.Name o)]];
       jen.Id "GetClaimReference";
       jen.Params [];
       jen.Op "*"; jen.Qual core "ObjectReference";
       jen.Block [
         [jen.Return [
            [jen.Id receiver; jen.Dot fields.NameSpec;
             jen.Dot "ClaimReference"]]]
       ]].

Definition NewSetResourceReference (receiver core : string) : New jen.File :=
  λ f o,
    let f := jen.Commentf f ("SetResourceReference of this " +:+ types.Name o +:+ ".") in
    jen.AddFunc f
      [jen.Params [[jen.Id receiver; jen.Op "*"; jen.Id (types.Name o)]];
       jen.Id "SetResourceReference";
       jen.Params [[jen.Id "r"; jen.Op "*"; jen.Qual core "ObjectReference"]];
       jen.Block [
         [jen.Id receiver; jen.Dot fields.NameSpec; jen.Dot "ResourceReference";
          jen.Op "="; jen.Id "r"]
       ]].

Definition NewGetResourceReference (receiver core : string) : New jen.File :=
  λ f o,
    let f := jen.Commentf f ("GetResourceReference of this " +:+ types.Name o +:+ ".") in
    jen.AddFunc f
      [jen.Params [[jen.Id receiver; jen.Op "*"; jen.Id (types.Name o)]];
       jen.Id "GetResourceReference";
       jen.Params [];
       jen.Op "*"; jen.Qual core "ObjectReference";
       jen.Block [
         [jen.Return [
            [jen.Id receiver; jen.Dot fields.NameSpec;
             jen.Dot "ResourceReference"]]]
       ]].

Definition NewSetNonPortableClassReference (receiver core : string)
  : New jen.File :=
  λ f o,
    let f := jen.Commentf f
      ("SetNonPortableClassReference of this " +:+ types.Name o +:+ ".") in
    jen.AddFunc f
      [jen.Params [[jen.Id receiver; jen.Op "*"; jen.Id (types.Name o)]];
       jen.Id "SetNonPortableClassReference";
       jen.Params [[jen.Id "r"; jen.Op "*"; jen.Qual core "ObjectReference"]];
       jen.Block [
         [jen.Id receiver; jen.Dot fields.NameSpec;
          jen.Dot "NonPortableClassReference"; jen.Op "="; jen.Id "r"]
       ]].

Definition NewGetNonPortableClassReference (receiver core : string)
  : New jen.File :=
  λ f o,
    let f := jen.Commentf f
      ("GetNonPortableClassReference of this " +:+ types.Name o +:+ ".") in
    jen.AddFunc f
      [jen.Params [[jen.Id receiver; jen.Op "*"; jen.Id (types.Name o)]];
       jen.Id "GetNonPortableClassReference";
       jen.Params [];
       jen.Op "*"; jen.Qual core "ObjectReference";
       jen.Block [
         [jen.Return [
            [jen.Id receiver; jen.Dot fields.NameSpec;
             jen.Dot "NonPortableClassReference"]]]
       ]].

Definition NewSetPortableClassReference (receiver core : string)
  : New jen.File :=
  λ f o,
    let f := jen.Commentf f
      ("SetPortableClassReference of this " +:+ types.Name o +:+ ".") in
    jen.AddFunc f
      [jen.Params [[jen.Id receiver; jen.Op "*"; jen.Id (types.Name o)]];
       jen.Id "SetPortableClassReference";
       jen.Params [[jen.Id "r"; jen.Op "*"; jen.Qual core "LocalObjectReference"]];
       jen.Block [
         [jen.Id receiver; jen.Dot fields.NameSpec;
          jen.Dot "PortableClassReference"; jen.Op "="; jen.Id "r"]
       ]].

Definition NewGetPortableClassReference (receiver core : string)
  : New jen.File :=
  λ f o,
    let f := jen.Commentf f
      ("GetPortableClassReference of this " +:+ types.Name o +:+ ".") in
    jen.AddFunc f
      [jen.Params [[jen.Id receiver; jen.Op "*"; jen.Id (types.Name o)]];
       jen.Id "GetPortableClassReference";
       jen.Params [];
       jen.Op "*"; jen.Qual core "LocalObjectReference";
       jen.Block [
         [jen.Return [
            [jen.Id receiver; jen.Dot fields.NameSpec;
             jen.Dot "PortableClassReference"]]]
       ]].

Definition NewSetWriteConnectionSecretToReference (receiver core : string)
  : New jen.File :=
  λ f o,
    let f := jen.Commentf f
      ("SetWriteConnectionSecretToReference of this " +:+ types.Name o +:+ ".") in
    jen.AddFunc f
      [jen.Params [[jen.Id receiver; jen.Op "*"; jen.Id (types.Name o)]];
       jen.Id "SetWriteConnectionSecretToReference";
       jen.Params [[jen.Id "r"; jen.Qual core "LocalObjectReference"]];
       jen.Block [
         [jen.Id receiver; jen.Dot fields.NameSpec;
          jen.Dot "WriteConnectionSecretToReference"; jen.Op "="; jen.Id "r"]
       ]].

Definition NewGetWriteConnectionSecretToReference (receiver core : string)
  : New jen.File :=
  λ f o,
    let f := jen.Commentf f
      ("GetWriteConnectionSecretToReference of this " +:+ types.Name o +:+ ".") in
    jen.AddFunc f
      [jen.Params [[jen.Id receiver; jen.Op "*"; jen.Id (types.Name o)]];
       jen.Id "GetWriteConnectionSecretToReference";
       jen.Params [];
       jen.Qual core "LocalObjectReference";
       jen.Block [
         [jen.Return [
            [jen.Id receiver; jen.Dot fields.NameSpec;
             jen.Dot "WriteConnectionSecretToReference"]]]
       ]].

Definition NewSetReclaimPolicy (receiver core field : string) : New jen.File :=
  λ f o,
    let f := jen.Commentf f ("SetReclaimPolicy of this " +:+ types.Name o +:+ ".") in
    jen.AddFunc f
      [jen.Params [[jen.Id receiver; jen.Op "*"; jen.Id (types.Name o)]];
       jen.Id "SetReclaimPolicy";
       jen.Params [[jen.Id "r"; jen.Qual core "ReclaimPolicy"]];
       jen.Block [
         [jen.Id receiver; jen.Dot field; jen.Dot "ReclaimPolicy";
          jen.Op "="; jen.Id "r"]
       ]].

Definition NewGetReclaimPolicy (receiver runtime field : string) : New jen.File :=
  λ f o,
    let f := jen.Commentf f ("GetReclaimPolicy of this " +:+ types.Name o +:+ ".") in
    jen.AddFunc f
      [jen.Params [[jen.Id receiver; jen.Op "*"; jen.Id (types.Name o)]];
       jen.Id "GetReclaimPolicy";
       jen.Params [];
       jen.Qual runtime "ReclaimPolicy";
       jen.Block [
         [jen.Return [
            [jen.Id receiver; jen.Dot field; jen.Dot "ReclaimPolicy"]]]
       ]].

Definition NewSetPortableClassItems (receiver resource : string) : New jen.File :=
  λ f o,
    let element := strings.TrimSuffix (types.Name o) "List" in
    let f := jen.Commentf f
      ("SetPortableClassItems of this " +:+ types.Name o +:+ ".") in
    jen.AddFunc f
      [jen.Params [[jen.Id receiver; jen.Op "*"; jen.Id (types.Name o)]];
       jen.Id "SetPortableClassItems";
       jen.Params [[jen.Id "i"; jen.Index []; jen.Qual resource "PortableClass"]];
       jen.Block [
         [jen.Id receiver; jen.Dot "Items"; jen.Op "=";
          jen.Make [[jen.Index []; jen.Id element]; [jen.Id "0"];
                    [jen.Len [jen.Id "i"]]]];
         [jen.For [[jen.Id "j"; jen.Op ":="; jen.Range; jen.Id "i"]];
          jen.Block [
            [jen.If [
               [jen.List [[jen.Id "actual"]; [jen.Id "ok"]]; jen.Op ":=";
                jen.Id "i"; jen.Index [[jen.Id "j"]];
                jen.Assert [jen.Op "*"; jen.Id element]];
               [jen.Id "ok"]];
             jen.Block [
               [jen.Id receiver; jen.Dot "Items"; jen.Op "=";
                jen.Append [[jen.Id receiver; jen.Dot "Items"];
                            [jen.Op "*"; jen.Id "actual"]]]
             ]]
          ]]
       ]].

Definition NewGetPortableClassItems (receiver resource : string) : New jen.File :=
  λ f o,
    let f := jen.Commentf f
      ("GetPortableClassItems of this " +:+ types.Name o +:+ ".") in
    jen.AddFunc f
      [jen.Params [[jen.Id receiver; jen.Op "*"; jen.Id (types.Name o)]];
       jen.Id "GetPortableClassItems";
       jen.Params [];
       jen.Index []; jen.Qual resource "PortableClass";
       jen.Block [
         [jen.Id "items"; jen.Op ":=";
          jen.Make [[jen.Index []; jen.Qual resource "PortableClass"];
                    [jen.Len [jen.Id receiver; jen.Dot "Items"]]]];
         [jen.For [[jen.Id "i"; jen.Op ":="; jen.Range; jen.Id receiver;
                    jen.Dot "Items"]];
          jen.Block [
            [jen.Id "items"; jen.Index [[jen.Id "i"]]; jen.Op "=";
             jen.Qual resource "PortableClass";
             jen.Call [[jen.Op "&"; jen.Id receiver; jen.Dot "Items";
                        jen.Index [[jen.Id "i"]]]]]
          ]];
         [jen.Return [[jen.Id "items"]]]
       ]].

(** The generators of the package with their configuration, the [New]
    each one stands for and the name of the method it writes. *)
Inductive Generator :=
| SetConditions (receiver runtime : string)
| GetCondition (receiver runtime : string)
| SetBindingPhase (receiver runtime : string)
| GetBindingPhase (receiver runtime : string)
| SetClaimReference (receiver core : string)
| GetClaimReference (receiver core : string)
| SetResourceReference (receiver core : string)
| GetResourceReference (receiver core : string)
| SetNonPortableClassReference (receiver core : string)
| GetNonPortableClassReference (receiver core : string)
| SetPortableClassReference (receiver core : string)
| GetPortableClassReference (receiver core : string)
| SetWriteConnectionSecretToReference (receiver core : string)
| GetWriteConnectionSecretToReference (receiver core : string)
| SetReclaimPolicy (receiver core field : string)
| GetReclaimPolicy (receiver runtime field : string)
| SetPortableClassItems (receiver resource : string)
| GetPortableClassItems (receiver resource : string).

Definition generate (g : Generator) : New jen.File :=
  match g with
  | SetConditions r p => NewSetConditions r p
  | GetCondition r p => NewGetCondition r p
  | SetBindingPhase r p => NewSetBindingPhase r p
  | GetBindingPhase r p => NewGetBindingPhase r p
  | SetClaimReference r p => NewSetClaimReference r p
  | GetClaimReference r p => NewGetClaimReference r p
  | SetResourceReference r p => NewSetResourceReference r p
  | GetResourceReference r p => NewGetResourceReference r p
  | SetNonPortableClassReference r p => NewSetNonPortableClassReference r p
  | GetNonPortableClassReference r p => NewGetNonPortableClassReference r p
  | SetPortableClassReference r p => NewSetPortableClassReference r p
  | GetPortableClassReference r p => NewGetPortableClassReference r p
  | SetWriteConnectionSecretToReference r p =>
      NewSetWriteConnectionSecretToReference r p
  | GetWriteConnectionSecretToReference r p =>
      NewGetWriteConnectionSecretToReference r p
  | SetReclaimPolicy r p fd => NewSetReclaimPolicy r p fd
  | GetReclaimPolicy r p fd => NewGetReclaimPolicy r p fd
  | SetPortableClassItems r p => NewSetPortableClassItems r p
  | GetPortableClassItems r p => NewGetPortableClassItems r p
  end.

Definition receiver_of (g : Generator) : string :=
  match g with
  | SetConditions r _ | GetCondition r _ | SetBindingPhase r _
  | GetBindingPhase r _ | SetClaimReference r _ | GetClaimReference r _
  | SetResourceReference r _ | GetResourceReference r _
  | SetNonPortableClassReference r _ | GetNonPortableClassReference r _
  | SetPortableClassReference r _ | GetPortableClassReference r _
  | SetWriteConnectionSecretToReference r _
  | GetWriteConnectionSecretToReference r _
  | SetReclaimPolicy r _ _ | GetReclaimPolicy r _ _
  | SetPortableClassItems r _ | GetPortableClassItems r _ => r
  end.

Definition method_of (g : Generator) : string :=
  match g with
  | SetConditions _ _ => "SetConditions"
  | GetCondition _ _ => "GetCondition"
  | SetBindingPhase _ _ => "SetBindingPhase"
  | GetBindingPhase _ _ => "GetBindingPhase"
  | SetClaimReference _ _ => "SetClaimReference"
  | GetClaimReference _ _ => "GetClaimReference"
  | SetResourceReference _ _ => "SetResourceReference"
  | GetResourceReference _ _ => "GetResourceReference"
  | SetNonPortableClassReference _ _ => "SetNonPortableClassReference"
  | GetNonPortableClassReference _ _ => "GetNonPortableClassReference"
  | SetPortableClassReference _ _ => "SetPortableClassReference"
  | GetPortableClassReference _ _ => "GetPortableClassReference"
  | SetWriteConnectionSecretToReference _ _ =>
      "SetWriteConnectionSecretToReference"
  | GetWriteConnectionSecretToReference _ _ =>
      "GetWriteConnectionSecretToReference"
  | SetReclaimPolicy _ _ _ => "SetReclaimPolicy"
  | GetReclaimPolicy _ _ _ => "GetReclaimPolicy"
  | SetPortableClassItems _ _ => "SetPortableClassItems"
  | GetPortableClassItems _ _ => "GetPortableClassItems"
  end.

(** The Get generators of the accessor and mutator family. *)
Definition get_family (g : Generator) : bool :=
  match g with
  | GetCondition _ _ | GetBindingPhase _ _ | GetClaimReference _ _
  | GetResourceReference _ _ | GetNonPortableClassReference _ _
  | GetPortableClassReference _ _
  | GetWriteConnectionSecretToReference _ _ | GetReclaimPolicy _ _ _ => true
  | _ => false
  end.

(** ** Reading a generated declaration *)

(** The parts of a method declaration
    [func (recv *T) Name(params) result { body }]. *)
Record MethodDecl := {
  recv_name : string;
  recv_pointer : bool;
  recv_type : string;
  decl_name : string;
  decl_params : list jen.Statement;
  decl_result : jen.Statement;
  decl_body : list jen.Statement;
}.

(** What follows the parameters: the result type, then the body, which is
    the last item. *)
Fixpoint split_body (rest : jen.Statement)
  : option (jen.Statement * list jen.Statement) :=
  match rest with
  | [] => None
  | [jen.Block body] => Some ([], body)
  | c :: rest' =>
      match split_body rest' with
      | Some (result, body) => Some (c :: result, body)
      | None => None
      end
  end.

Definition read_receiver (recv : jen.Statement) : option (string * bool * string) :=
  match recv with
  | [jen.Id r; jen.Op op; jen.Id t] =>
      if String.eqb op "*" then Some (r, true, t) else None
  | [jen.Id r; jen.Id t] => Some (r, false, t)
  | _ => None
  end.

Definition read_method (st : jen.Statement) : option MethodDecl :=
  match st with
  | jen.Func :: jen.Params [recv] :: jen.Id name :: jen.Params ps :: rest =>
      match read_receiver recv, split_body rest with
      | Some (r, ptr, t), Some (result, body) =>
          Some {| recv_name := r; recv_pointer := ptr; recv_type := t;
                  decl_name := name; decl_params := ps;
                  decl_result := result; decl_body := body |}
      | _, _ => None
      end
  | _ => None
  end.

(** The method declarations of a file, in order. *)
Definition methods_of_file (f : jen.File) : list MethodDecl :=
  omap read_method f.

(** A declaration has a return type. *)
Definition has_return_type (d : MethodDecl) : bool :=
  match decl_result d with
  | [] => false
  | _ :: _ => true
  end.

(** The body is one [return] of an expression that starts at a field of
    the receiver. *)
Definition returns_field (d : MethodDecl) : bool :=
  match decl_body d with
  | [[jen.Return [jen.Id r :: jen.Dot _ :: _]]] => String.eqb r (recv_name d)
  | _ => false
  end.

(** A statement of the body assigns: it has the operator [=]. *)
Definition is_assign (c : jen.Code) : bool :=
  match c with
  | jen.Op op => String.eqb op "="
  | _ => false
  end.

Definition assigns (d : MethodDecl) : bool :=
  existsb (existsb is_assign) (decl_body d).

(** The method that the type checker sees for a declaration found at
    position [pos], and the type it belongs to. *)
Definition declared_method (d : MethodDecl) (pos : token.Pos) : types.Method :=
  {| types.MethodObj := {| types.FuncName := decl_name d; types.FuncPos := pos |};
     types.PointerReceiver := recv_pointer d |}.

(** ** The generated [PortableClassItems] methods, run

    For a type [TList] with a field [Items []T], a receiver name [r] that
    is none of the local names below and [T] the name [TrimSuffix] yields,
    the two generators write

    [func (r *TList) SetPortableClassItems(i []resource.PortableClass) {
       r.Items = make([]T, 0, len(i))
       for j := range i {
         if actual, ok := i[j] narrowed to *T; ok {
           r.Items = append(r.Items, *actual)
         }
       }
     }]

    [func (r *TList) GetPortableClassItems() []resource.PortableClass {
       items := make([]resource.PortableClass, len(r.Items))
       for i := range r.Items {
         items[i] = resource.PortableClass(&r.Items[i])
       }
       return items
     }]

    (the condition of the [if] is the two-result type assertion of [i[j]]
    to [*T]), which are run here over a store of backing arrays. *)

Module generated.

(** A pointer to an element: nil, or a backing array and an index in it. *)
Abbreviation Ptr := (option (nat * nat)).

(** A slice of elements: its first element, length and capacity. *)
Record Slice := { array : Ptr; len : nat; cap : nat }.

(** [&s[k]], without the bounds check. *)
Definition element_addr (s : Slice) (k : nat) : Ptr :=
  match array s with
  | Some (b, off) => Some (b, off + k)
  | None => None
  end.

(** A value of the interface type [resource.PortableClass]: nil, or a
    dynamic type with its value. Only a pointer to a named type can be
    narrowed to [*T]; of any other dynamic type the name suffices. *)
Inductive PortableClass :=
| nil_interface
| pointer_to (typ : string) (p : Ptr)
| value_of (typ : string).

(** The type assertion of [x] to [*element], in its two-result form. *)
Definition assert_pointer (element : string) (x : PortableClass) : Ptr * bool :=
  match x with
  | pointer_to typ p => if String.eqb typ element then (p, true) else (None, false)
  | _ => (None, false)
  end.

(** The interface values that hold the addresses of the elements [ks] of
    a slice. *)
Definition views (element : string) (s : Slice) (ks : list nat)
  : list PortableClass :=
  (λ k, pointer_to element (element_addr s k)) <$> ks.

Section run.

Context {Elem : Type}.

(** The zero value of the element type, and the capacity the runtime
    chooses when [append] has to move a slice of capacity [c] to hold [n]
    elements. *)
Variable zero : Elem.
Variable growcap : nat → nat → nat.

(** The state a method runs in: the backing arrays, and the [Items] field
    of the receiver. *)
Record State := { heap : gmap nat (list Elem); Items : Slice }.

(** A computation either panics ([None]) or returns a value and a state. *)
Definition M (A : Type) : Type := State → option (A * State).

#[global] Instance M_ret : MRet M := λ A a st, Some (a, st).
#[global] Instance M_bind : MBind M := λ A B k m st,
  match m st with
  | Some (a, st') => k a st'
  | None => None
  end.

Definition panic {A} : M A := λ _, None.

Definition get_Items : M Slice := λ st, Some (Items st, st).

Definition set_Items (s : Slice) : M unit :=
  λ st, Some (tt, {| heap := heap st; Items := s |}).

(** [*p] *)
Definition load (p : Ptr) : M Elem := λ st,
  match p with
  | Some (b, k) =>
      match heap st !! b with
      | Some blk =>
          match blk !! k with
          | Some v => Some (v, st)
          | None => None
          end
      | None => None
      end
  | None => None
  end.

(** [*p = v] *)
Definition store (p : Ptr) (v : Elem) : M unit := λ st,
  match p with
  | Some (b, k) =>
      match heap st !! b with
      | Some blk =>
          if decide (k < length blk) then
            Some (tt, {| heap := <[b := <[k := v]> blk]> (heap st);
                         Items := Items st |})
          else None
      | None => None
      end
  | None => None
  end.

(** [make([]T, n, c)]: a new backing array of [c] zero values. *)
Definition make (n c : nat) : M Slice := λ st,
  if decide (n ≤ c) then
    let b := fresh (dom (heap st)) in
    Some ({| array := Some (b, 0); len := n; cap := c |},
          {| heap := <[b := replicate c zero]> (heap st); Items := Items st |})
  else None.

Fixpoint copy_elements (src dst : Slice) (k : nat) : M unit :=
  match k with
  | 0 => mret tt
  | S k' =>
      copy_elements src dst k';;
      v ← load (element_addr src k');
      store (element_addr dst k') v
  end.

(** [append(s, v)]: in place when the capacity allows, else into a new,
    larger backing array. *)
Definition append (s : Slice) (v : Elem) : M Slice :=
  if decide (len s < cap s) then
    store (element_addr s (len s)) v;;
    mret {| array := array s; len := S (len s); cap := cap s |}
  else
    s' ← make (S (len s)) (S (len s) `max` growcap (cap s) (S (len s)));
    copy_elements s s' (len s);;
    store (element_addr s' (len s)) v;;
    mret s'.

(** [i[j]] on a slice of interface values, given by its elements. *)
Definition index (i : list PortableClass) (j : nat) : M PortableClass :=
  match i !! j with
  | Some x => mret x
  | None => panic
  end.

(** [for j := range ...] over the indices [js]. *)
Fixpoint for_range (js : list nat) (body : nat → M unit) : M unit :=
  match js with
  | [] => mret tt
  | j :: js' => body j;; for_range js' body
  end.

Definition SetPortableClassItems (element : string) (i : list PortableClass)
  : M unit :=
  s ← make 0 (length i);
  set_Items s;;
  for_range (seq 0 (length i)) (λ j,
    x ← index i j;
    let '(actual, ok) := assert_pointer element x in
    if ok then
      items ← get_Items;
      v ← load actual;
      s' ← append items v;
      set_Items s'
    else mret tt).

(** [&s[k]] *)
Definition address_of (s : Slice) (k : nat) : M Ptr :=
  if decide (k < len s) then mret (element_addr s k) else panic.

(** [items[k] = x] *)
Definition assign_index (items : list PortableClass) (k : nat)
    (x : PortableClass) : M (list PortableClass) :=
  if decide (k < length items) then mret (<[k := x]> items) else panic.

Fixpoint GetPortableClassItems_loop (element : string) (js : list nat)
    (items : list PortableClass) : M (list PortableClass) :=
  match js with
  | [] => mret items
  | i :: js' =>
      s ← get_Items;
      p ← address_of s i;
      items' ← assign_index items i (pointer_to element p);
      GetPortableClassItems_loop element js' items'
  end.

(** [element] is the element type of the field [Items]. *)
Definition GetPortableClassItems (element : string) : M (list PortableClass) :=
  s ← get_Items;
  let items := replicate (len s) nil_interface in
  s ← get_Items;
  items ← GetPortableClassItems_loop element (seq 0 (len s)) items;
  mret items.

(** The elements of a slice, when it lies within its backing array. *)
Definition contents (h : gmap nat (list Elem)) (s : Slice) : option (list Elem) :=
  match array s with
  | Some (b, off) =>
      match h !! b with
      | Some blk =>
          if decide (off + len s ≤ length blk) then
            Some (take (len s) (drop off blk))
          else None
      | None => None
      end
  | None => if decide (len s = 0) then Some [] else None
  end.

(** [*p] as a value, in a store. *)
Definition deref (h : gmap nat (list Elem)) (p : Ptr) : option Elem :=
  match p with
  | Some (b, k) => h !! b ≫= λ blk, blk !! k
  | None => None
  end.

(** The elements of [i] that narrow to [*element], dereferenced. *)
Definition narrowed (element : string) (h : gmap nat (list Elem))
    (i : list PortableClass) : list Elem :=
  omap (λ x, let '(p, ok) := assert_pointer element x in
             if ok then deref h p else None) i.

(** Every element of [i] that narrows to [*element] points to an element
    of the store. *)
Definition narrowed_valid (element : string) (h : gmap nat (list Elem))
    (i : list PortableClass) : bool :=
  forallb (λ x, let '(p, ok) := assert_pointer element x in
                if ok then bool_decide (is_Some (deref h p)) else true) i.

(** The body of the loop of [SetPortableClassItems]. *)
Definition SetPortableClassItems_body (element : string)
    (i : list PortableClass) (j : nat)
  : M unit :=
  x ← index i j;
  let '(actual, ok) := assert_pointer element x in
  if ok then
    items ← get_Items;
    v ← load actual;
    s' ← append items v;
    set_Items s'
  else mret tt.

(** The state when the loop has appended [vs] to the array [b] that was
    made with capacity [n]. *)
Definition appended (h : gmap nat (list Elem)) (b n : nat) (vs : list Elem)
  : State :=
  {| heap := <[b := vs ++ replicate (n - length vs) zero]> h;
     Items := {| array := Some (b, 0); len := length vs; cap := n |} |}.

End run.

End generated.

(** ** Inputs for the examples *)

Module examples.

(** A type [Bucket] with no methods yet. *)
Definition bucket : types.Object :=
  {| types.Name := "Bucket"; types.Type__ := types.Named "Bucket" [] |}.

(** Positions below 100 lie in manual.go, the others in zz_generated.go. *)
Definition file_set : token.FileSet :=
  {| token.Position_ := λ p,
       {| token.Filename :=
            if (p <? 100)%Z then "manual.go" else "zz_generated.go";
          token.Offset := p; token.Line := 1; token.Column := 1 |} |}.

(** A type [Bucket] whose [SetConditions] was written by hand in manual.go
    and whose [GetBindingPhase] comes from an earlier run of the
    generator. *)
Definition bucket_with_methods : types.Object :=
  {| types.Name := "Bucket";
     types.Type__ := types.Named "Bucket" [
       {| types.MethodObj :=
            {| types.FuncName := "SetConditions"; types.FuncPos := 10%Z |};
          types.PointerReceiver := true |};
       {| types.MethodObj :=
            {| types.FuncName := "GetBindingPhase"; types.FuncPos := 200%Z |};
          types.PointerReceiver := true |}] |}.

(** The registry of the sort-order property, each generator leaving a mark
    in the output. *)
Definition foo_registry : Set_ (list string) :=
  {[ "GetFoo" := (λ f _, f ++ ["get"]);
     "SetFoo" := (λ f _, f ++ ["set"]);
     "AddFoo" := (λ f _, f ++ ["add"]) ]}.

(** A registry of three of the generators of the package. *)
Definition bucket_registry : Set_ jen.File :=
  {[ "SetConditions" := NewSetConditions "b" "runtime";
     "GetBindingPhase" := NewGetBindingPhase "b" "runtime";
     "SetBindingPhase" := NewSetBindingPhase "b" "runtime" ]}.

(** A store with one array of three elements, a receiver whose [Items] is
    the nil slice, and three interface values of which the second does not
    narrow to [*T]. *)
Definition store0 : generated.State :=
  {| generated.heap := {[ 0 := [10; 20; 30] ]};
     generated.Items :=
       {| generated.array := None; generated.len := 0; generated.cap := 0 |} |}.

Definition three_items : list generated.PortableClass :=
  [generated.pointer_to "T" (Some (0, 2));
   generated.value_of "T";
   generated.pointer_to "T" (Some (0, 0))].

Definition double_capacity (c n : nat) : nat := 2 * n.

End examples.

(** ** Registries of the generators, and a type after a pass *)

(** A registry whose every entry is a generator of the package under the
    name of the method it writes. *)
Definition generated_registry (s : Set_ jen.File) : Prop :=
  ∀ name new, s !! name = Some new →
    ∃ g, new = generate g ∧ method_of g = name.

(** The methods that the type checker finds for the type [T] in the
    declarations of the file [f], the [k]-th of them at position [pos k]. *)
Definition methods_declared (f : jen.File) (T : string) (pos : nat → token.Pos)
  : list types.Method :=
  imap (λ k d, declared_method d (pos k))
    (filter (λ d, recv_type d = T) (methods_of_file f)).

(** The object [o] once the file [f] is part of the package. *)
Definition with_file (o : types.Object) (f : jen.File) (pos : nat → token.Pos)
  : types.Object :=
  {| types.Name := types.Name o;
     types.Type__ :=
       match types.Type__ o with
       | types.Named n ms =>
           types.Named n (ms ++ methods_declared f (types.Name o) pos)
       | t => t
       end |}.

(** The pairs of a Set and a Get generator for one field, with their
    configuration: the receiver, the package of the type of the field and,
    for the reclaim policy, the field that holds it. *)
Inductive FieldPair :=
| ClaimReference (receiver core : string)
| ResourceReference (receiver core : string)
| NonPortableClassReference (receiver core : string)
| PortableClassReference (receiver core : string)
| WriteConnectionSecretToReference (receiver core : string)
| ReclaimPolicy (receiver core field : string).

Definition setter_of (p : FieldPair) : Generator :=
  match p with
  | ClaimReference r c => SetClaimReference r c
  | ResourceReference r c => SetResourceReference r c
  | NonPortableClassReference r c => SetNonPortableClassReference r c
  | PortableClassReference r c => SetPortableClassReference r c
  | WriteConnectionSecretToReference r c =>
      SetWriteConnectionSecretToReference r c
  | ReclaimPolicy r c fd => SetReclaimPolicy r c fd
  end.

Definition getter_of (p : FieldPair) : Generator :=
  match p with
  | ClaimReference r c => GetClaimReference r c
  | ResourceReference r c => GetResourceReference r c
  | NonPortableClassReference r c => GetNonPortableClassReference r c
  | PortableClassReference r c => GetPortableClassReference r c
  | WriteConnectionSecretToReference r c =>
      GetWriteConnectionSecretToReference r c
  | ReclaimPolicy r c fd => GetReclaimPolicy r c fd
  end.

(** The name of the field of a pair, and the field it lies in. *)
Definition field_of (p : FieldPair) : string :=
  match p with
  | ClaimReference _ _ => "ClaimReference"
  | ResourceReference _ _ => "ResourceReference"
  | NonPortableClassReference _ _ => "NonPortableClassReference"
  | PortableClassReference _ _ => "PortableClassReference"
  | WriteConnectionSecretToReference _ _ => "WriteConnectionSecretToReference"
  | ReclaimPolicy _ _ _ => "ReclaimPolicy"
  end.

Definition parent_of (p : FieldPair) : string :=
  match p with
  | ReclaimPolicy _ _ fd => fd
  | _ => fields.NameSpec
  end.

(** The package that a pair was configured with for the type of its
    field. *)
Definition package_of (p : FieldPair) : string :=
  match p with
  | ClaimReference _ c | ResourceReference _ c
  | NonPortableClassReference _ c | PortableClassReference _ c
  | WriteConnectionSecretToReference _ c | ReclaimPolicy _ c _ => c
  end.

(** The generators whose method hands its parameters to the method of the
    same name of the status. *)
Definition status_family (g : Generator) : bool :=
  match g with
  | SetConditions _ _ | GetCondition _ _ | SetBindingPhase _ _
  | GetBindingPhase _ _ => true
  | _ => false
  end.

(** A parameter as an argument of a call: its name, followed by [...]
    when it is variadic. *)
Definition pass_through (param : jen.Statement) : jen.Statement :=
  match param with
  | jen.Id x :: jen.Op op :: _ =>
      if String.eqb op "..." then [jen.Id x; jen.Op "..."] else [jen.Id x]
  | jen.Id x :: _ => [jen.Id x]
  | _ => []
  end.

(** ** More inputs for the examples *)

Module more_examples.

(** A type [Bucket] whose [SetConditions] was written by hand in
    manual.go. *)
Definition bucket_hand_written : types.Object :=
  {| types.Name := "Bucket";
     types.Type__ := types.Named "Bucket" [
       {| types.MethodObj :=
            {| types.FuncName := "SetConditions"; types.FuncPos := 10%Z |};
          types.PointerReceiver := true |}] |}.

(** The member of the method set for a [GetBindingPhase] declared in
    zz_generated.go. *)
Definition generated_member : types.Selection :=
  {| types.Obj :=
       {| types.FuncName := "GetBindingPhase"; types.FuncPos := 200%Z |} |}.

(** Every declaration of the generated file at a position of
    zz_generated.go. *)
Definition generated_pos (k : nat) : token.Pos := 200%Z.

(** The two halves of the registry of the sort-order property. *)
Definition foo_first : Set_ (list string) :=
  {[ "GetFoo" := (λ f _, f ++ ["get"]); "AddFoo" := (λ f _, f ++ ["add"]) ]}.

Definition foo_second : Set_ (list string) :=
  {[ "SetFoo" := (λ f _, f ++ ["set"]) ]}.

(** A filter that holds back [GetFoo]. *)
Definition no_GetFoo : Filter := λ _ name, String.eqb name "GetFoo".

(** The output of a first pass for the hand-written and for the empty
    [Bucket]. *)
Definition first_pass : jen.File :=
  default []
    (Write ["SetConditions"; "SetBindingPhase"; "GetBindingPhase"]
       examples.bucket_registry [] bucket_hand_written
       (DefinedOutside examples.file_set "zz_generated.go")).

Definition first_pass_all : jen.File :=
  default []
    (Write ["SetConditions"; "SetBindingPhase"; "GetBindingPhase"]
       examples.bucket_registry [] examples.bucket (λ _ _, false)).

(** A receiver whose [Items] are the last two elements of an array. *)
Definition store1 : generated.State :=
  {| generated.heap := {[ 0 := [10; 20; 30] ]};
     generated.Items :=
       {| generated.array := Some (0, 1); generated.len := 2;
          generated.cap := 2 |} |}.

End more_examples.
Section DefinedOutside_facts.

Variable fs : token.FileSet.
Variable filename : string.

Lemma DefinedOutside_loop_spec (s : types.MethodSet) (name : string) (n i : nat) :
  i + n = length s →
  DefinedOutside_loop fs filename s name i n = true ↔
  ∃ sel, sel ∈ drop i s ∧ methodName sel = name ∧
         declaringFile fs sel ≠ filename.
Proof.
  revert i. induction n as [|n IH]; intros i Hlen; simpl.
  - rewrite drop_ge by lia. split; [done|].
    intros (sel & Hin & _). by apply elem_of_nil in Hin.
  - unfold types.At.
    destruct (lookup_lt_is_Some_2 s i ltac:(lia)) as [sel Hsel].
    rewrite Hsel. rewrite (drop_S _ _ _ Hsel).
    unfold methodName, declaringFile in *.
    destruct (String.eqb_spec (types.FuncName (types.Obj sel)) name) as [Hn|Hn];
      simpl.
    + destruct (String.eqb_spec
        (token.Filename (token.Position_ fs (types.FuncPos (types.Obj sel))))
        filename) as [Hf|Hf]; simpl.
      * rewrite IH by lia. split.
        -- intros (sel' & ? & ? & ?). exists sel'. by rewrite elem_of_cons; auto.
        -- intros (sel' & [->|?]%elem_of_cons & ? & ?); [done|].
           by exists sel'.
      * split; [|done]. intros _. exists sel.
        rewrite elem_of_cons. auto.
    + rewrite IH by lia. split.
      * intros (sel' & ? & ? & ?). exists sel'. by rewrite elem_of_cons; auto.
      * intros (sel' & [->|?]%elem_of_cons & ? & ?); [done|].
        by exists sel'.
Qed.

Lemma DefinedOutside_spec (o : types.Object) (name : string) :
  DefinedOutside fs filename o name = true ↔
  ∃ sel, sel ∈ pointerMethodSet o ∧ methodName sel = name ∧
         declaringFile fs sel ≠ filename.
Proof.
  unfold DefinedOutside. fold (pointerMethodSet o).
  rewrite DefinedOutside_loop_spec by done. by rewrite drop_0.
Qed.

End DefinedOutside_facts.

(** C1: [DefinedOutside fs F o n] is true exactly when the
    pointer-receiver method set of [o] has a member named [n] declared in
    a file other than [F]; it is false when no member is named [n], and
    false when every member named [n] was declared in [F]. *)
Theorem DefinedOutside_iff (fs : token.FileSet) (F : string)
    (o : types.Object) (n : string) :
  (DefinedOutside fs F o n = true ↔
     ∃ sel, sel ∈ pointerMethodSet o ∧ methodName sel = n ∧
            declaringFile fs sel ≠ F) ∧
  ((∀ sel, sel ∈ pointerMethodSet o → methodName sel ≠ n) →
     DefinedOutside fs F o n = false) ∧
  ((∀ sel, sel ∈ pointerMethodSet o → methodName sel = n →
           declaringFile fs sel = F) →
     DefinedOutside fs F o n = false).
Proof.
  split; [apply DefinedOutside_spec|].
  split; intros H; apply not_true_is_false;
    rewrite DefinedOutside_spec; intros (sel & Hin & Hn & Hf).
  - by apply (H sel).
  - by apply Hf, H.
Qed.

Section Write_facts.

Context {W : Type}.
Implicit Types (s : Set_ W) (f : W) (o : types.Object) (mf : Filter).

Lemma Write_names_id (keys : list string) :
  foldl (λ names name, names ++ [name]) [] keys = keys.
Proof.
  assert (∀ acc, foldl (λ names name, names ++ [name]) acc keys = acc ++ keys)
    as H; [|apply H].
  induction keys as [|k keys IH]; intros acc; simpl.
  - by rewrite app_nil_r.
  - rewrite IH. by rewrite <-app_assoc.
Qed.

Lemma sort_Strings_Sorted (names : list string) :
  Sorted String.le (sort_Strings names).
Proof. apply (Sorted_merge_sort String.le). Qed.

Lemma sort_Strings_Permutation (names : list string) :
  sort_Strings names ≡ₚ names.
Proof. apply (merge_sort_Permutation String.le). Qed.

(** Any sorted rearrangement of the names is the one [sort_Strings]
    returns. *)
Lemma sort_Strings_unique (names sorted : list string) :
  Sorted String.le sorted → sorted ≡ₚ names → sorted = sort_Strings names.
Proof.
  intros Hs Hp. apply (Sorted_unique String.le); [done|apply sort_Strings_Sorted|].
  by rewrite sort_Strings_Permutation.
Qed.

Lemma sort_Strings_perm (l1 l2 : list string) :
  l1 ≡ₚ l2 → sort_Strings l1 = sort_Strings l2.
Proof.
  intros Hp. apply sort_Strings_unique; [apply sort_Strings_Sorted|].
  by rewrite sort_Strings_Permutation.
Qed.

Lemma range_order_sorted s keys :
  range_order s keys →
  sort_Strings (foldl (λ names name, names ++ [name]) [] keys) = sorted_names s.
Proof. intros Hk. rewrite Write_names_id. by apply sort_Strings_perm. Qed.

Lemma elem_of_sorted_names s name :
  name ∈ sorted_names s ↔ is_Some (s !! name).
Proof.
  unfold sorted_names. rewrite sort_Strings_Permutation.
  rewrite list_elem_of_fmap. split.
  - intros ([k new] & -> & Hin). apply elem_of_map_to_list in Hin. by eexists.
  - intros [new Hnew]. exists (name, new). split; [done|].
    by apply elem_of_map_to_list.
Qed.

Lemma NoDup_sorted_names s : NoDup (sorted_names s).
Proof.
  unfold sorted_names. rewrite sort_Strings_Permutation.
  apply NoDup_fst_map_to_list.
Qed.

Lemma Write_loop_registered s o mf names f :
  (∀ name, name ∈ names → is_Some (s !! name)) →
  Write_loop s o mf names f =
    Some (foldl (invoke s o) f (filter (λ name, mf o name = false) names)).
Proof.
  revert f. induction names as [|name names IH]; intros f Hreg; [done|].
  cbn [Write_loop].
  assert (∀ n, n ∈ names → is_Some (s !! n)) as Hreg'.
  { intros n Hn. apply Hreg. rewrite elem_of_cons. by right. }
  destruct (mf o name) eqn:Hmf.
  - rewrite filter_cons_False by (rewrite Hmf; done). by apply IH.
  - rewrite filter_cons_True by done. cbn [foldl].
    destruct (Hreg name) as [new Hnew]; [rewrite elem_of_cons; by left|].
    rewrite Hnew. unfold invoke at 2. rewrite Hnew. by apply IH.
Qed.

(** [Write] returns, and what it returns is the generators of the names
    the filter lets through, called in increasing order of name. *)
Lemma Write_spec keys s f o mf :
  range_order s keys →
  Write keys s f o mf = Some (foldl (invoke s o) f (written_names s o mf)).
Proof.
  intros Hk. unfold Write. rewrite (range_order_sorted s keys Hk).
  apply Write_loop_registered. intros name. by rewrite elem_of_sorted_names.
Qed.

End Write_facts.

Lemma StronglySorted_filter_keep {A} (R : relation A) (P : A → Prop)
    `{∀ x, Decision (P x)} (l : list A) :
  StronglySorted R l → StronglySorted R (filter P l).
Proof.
  induction 1 as [|x l Hl IH Hx]; [constructor|].
  rewrite filter_cons. case_decide; [|done].
  constructor; [done|]. rewrite Forall_forall in Hx |- *.
  intros y [_ Hy]%list_elem_of_filter. by apply Hx.
Qed.

Section traced_facts.

Context {W : Type}.
Implicit Types (s : Set_ W) (f : W) (o : types.Object) (mf : Filter).

Lemma traced_lookup s name :
  traced s !! name =
    (λ new (w : W * list string) o, (new w.1 o, w.2 ++ [name])) <$> s !! name.
Proof.
  unfold traced. rewrite map_lookup_imap. by destruct (s !! name).
Qed.

Lemma traced_keys s : (map_to_list (traced s)).*1 ≡ₚ (map_to_list s).*1.
Proof.
  apply NoDup_Permutation; [apply NoDup_fst_map_to_list..|].
  intros name. rewrite !list_elem_of_fmap. split.
  - intros ([k g] & -> & Hin). apply elem_of_map_to_list in Hin.
    rewrite traced_lookup in Hin. simpl in *.
    destruct (s !! k) as [new|] eqn:Hk; [|done].
    exists (k, new). split; [done|]. by apply elem_of_map_to_list.
  - intros ([k new] & -> & Hin). apply elem_of_map_to_list in Hin.
    eexists (k, _). split; [done|]. apply elem_of_map_to_list.
    rewrite traced_lookup, Hin. done.
Qed.

Lemma traced_range_order s keys :
  range_order s keys → range_order (traced s) keys.
Proof. unfold range_order. intros ->. by rewrite traced_keys. Qed.

Lemma traced_sorted_names s : sorted_names (traced s) = sorted_names s.
Proof. apply sort_Strings_perm, traced_keys. Qed.

Lemma traced_foldl s o names f tr :
  (∀ name, name ∈ names → is_Some (s !! name)) →
  foldl (invoke (traced s) o) (f, tr) names =
    (foldl (invoke s o) f names, tr ++ names).
Proof.
  revert f tr. induction names as [|name names IH]; intros f tr Hreg.
  - by rewrite app_nil_r.
  - destruct (Hreg name) as [new Hnew]; [rewrite elem_of_cons; by left|].
    cbn [foldl]. unfold invoke at 2 4. rewrite traced_lookup, Hnew. simpl.
    rewrite IH.
    + by rewrite <-app_assoc.
    + intros n Hn. apply Hreg. rewrite elem_of_cons. by right.
Qed.

(** The calls [Write] makes: the generators of the names the filter lets
    through, each once, in increasing order of name. *)
Lemma Write_traced keys s f o mf :
  range_order s keys →
  Write keys (traced s) (f, []) o mf =
    Some (foldl (invoke s o) f (written_names s o mf), written_names s o mf).
Proof.
  intros Hk. rewrite (Write_spec keys); [|by apply traced_range_order].
  unfold written_names. rewrite traced_sorted_names.
  rewrite traced_foldl; [done|].
  intros name [_ Hin]%list_elem_of_filter. by apply elem_of_sorted_names.
Qed.

Lemma written_names_Sorted s o mf : Sorted String.le (written_names s o mf).
Proof.
  unfold written_names.
  apply Sorted.StronglySorted_Sorted, StronglySorted_filter_keep.
  apply (Sorted_StronglySorted String.le), sort_Strings_Sorted.
Qed.

Lemma written_names_NoDup s o mf : NoDup (written_names s o mf).
Proof. apply NoDup_filter, NoDup_sorted_names. Qed.

Lemma elem_of_written_names s o mf name :
  name ∈ written_names s o mf ↔ is_Some (s !! name) ∧ mf o name = false.
Proof.
  unfold written_names. rewrite list_elem_of_filter, elem_of_sorted_names.
  tauto.
Qed.

End traced_facts.

(** ** The registry: order, filtering, determinism *)

Section Write_claims.

Context {W : Type}.
Implicit Types (s : Set_ W) (f : W) (o : types.Object) (mf : Filter).

Lemma filter_all {A} (P : A → Prop) `{∀ x, Decision (P x)} (l : list A) :
  (∀ x, x ∈ l → P x) → filter P l = l.
Proof.
  induction l as [|x l IH]; intros Hall; [done|].
  rewrite filter_cons_True by (apply Hall; rewrite elem_of_cons; by left).
  f_equal. apply IH. intros y Hy. apply Hall. rewrite elem_of_cons. by right.
Qed.

Lemma written_names_unfiltered s o mf :
  (∀ name, is_Some (s !! name) → mf o name = false) →
  written_names s o mf = sorted_names s.
Proof.
  intros Hmf. apply filter_all. intros name Hin. apply Hmf.
  by apply elem_of_sorted_names.
Qed.

Lemma range_order_dom (s s' : Set_ W) keys :
  dom s' = dom s → range_order s keys → range_order s' keys.
Proof.
  unfold range_order. intros Hdom ->.
  apply NoDup_Permutation; [apply NoDup_fst_map_to_list..|].
  assert (∀ (m : Set_ W) k, k ∈ (map_to_list m).*1 ↔ k ∈ dom m) as Hkeys.
  { intros m k. rewrite elem_of_dom, list_elem_of_fmap. split.
    - intros ([k' new] & -> & Hin). apply elem_of_map_to_list in Hin. by eexists.
    - intros [new Hnew]. exists (k, new). split; [done|].
      by apply elem_of_map_to_list. }
  intros k. by rewrite !Hkeys, Hdom.
Qed.

Lemma sorted_names_dom (s s' : Set_ W) :
  dom s' = dom s → sorted_names s' = sorted_names s.
Proof.
  intros Hdom. apply sort_Strings_perm.
  apply (range_order_dom s' s); [done|]. by unfold range_order.
Qed.

Lemma foldl_invoke_agree (s s' : Set_ W) o names f :
  (∀ name, name ∈ names → s' !! name = s !! name) →
  foldl (invoke s' o) f names = foldl (invoke s o) f names.
Proof.
  revert f. induction names as [|name names IH]; intros f Hagree; [done|].
  cbn [foldl]. unfold invoke at 2 4. rewrite Hagree by (rewrite elem_of_cons; by left).
  apply IH. intros n Hn. apply Hagree. rewrite elem_of_cons. by right.
Qed.

Lemma foldl_invoke_count (count : W → nat) s o names f :
  (∀ name, name ∈ names → is_Some (s !! name)) →
  (∀ name new w, s !! name = Some new → count (new w o) = S (count w)) →
  count (foldl (invoke s o) f names) = count f + length names.
Proof.
  revert f. induction names as [|name names IH]; intros f Hreg Hone; simpl.
  - lia.
  - destruct (Hreg name) as [new Hnew]; [rewrite elem_of_cons; by left|].
    rewrite IH; [|intros n Hn; apply Hreg; rewrite elem_of_cons; by right|done].
    unfold invoke. rewrite Hnew, (Hone _ _ _ Hnew). lia.
Qed.

Lemma three_names_sorted (get set add : New W) :
  sorted_names
    ({[ "GetFoo" := get; "SetFoo" := set; "AddFoo" := add ]} : Set_ W) =
  ["AddFoo"; "GetFoo"; "SetFoo"].
Proof.
  symmetry. apply sort_Strings_unique.
  - repeat constructor; by vm_compute.
  - vm_compute. apply (Permutation_cons_append ["GetFoo"; "SetFoo"] "AddFoo").
Qed.

(** C2: [Write] calls the generators of the registered names in
    increasing lexicographic order, whatever the order [keys] in which the
    map is iterated; for the registry of GetFoo, SetFoo and AddFoo with
    nothing filtered the calls are AddFoo, GetFoo, SetFoo. *)
Theorem Write_sorted_order s keys f o mf :
  range_order s keys →
  ∃ f' visited,
    Write keys (traced s) (f, []) o mf = Some (f', visited) ∧
    Write keys s f o mf = Some f' ∧
    Sorted String.le visited ∧
    visited = filter (λ name, mf o name = false)
                (sort_Strings (map_to_list s).*1) ∧
    (∀ get set add,
       s = {[ "GetFoo" := get; "SetFoo" := set; "AddFoo" := add ]} →
       (∀ name, mf o name = false) →
       visited = ["AddFoo"; "GetFoo"; "SetFoo"] ∧
       f' = set (get (add f o) o) o).
Proof.
  intros Hk. exists (foldl (invoke s o) f (written_names s o mf)).
  exists (written_names s o mf).
  split; [by apply Write_traced|]. split; [by apply Write_spec|].
  split; [apply written_names_Sorted|]. split; [done|].
  intros get set add -> Hmf.
  rewrite written_names_unfiltered by (intros; apply Hmf).
  rewrite three_names_sorted. split; [done|].
  by vm_compute.
Qed.

(** C3: [Write] calls the generator of each registered name that the
    filter lets through exactly once, which for generators that write one
    declaration each is one declaration per such name; the generator of a
    filtered name is not called, so the result does not depend on it. *)
Theorem Write_skips_filtered s keys f o mf :
  range_order s keys →
  ∃ f' called,
    Write keys (traced s) (f, []) o mf = Some (f', called) ∧
    Write keys s f o mf = Some f' ∧
    NoDup called ∧
    (∀ name, name ∈ called ↔ is_Some (s !! name) ∧ mf o name = false) ∧
    (∀ name, mf o name = true → name ∉ called) ∧
    (∀ count : W → nat,
       (∀ name new w, s !! name = Some new → count (new w o) = S (count w)) →
       count f' = count f + length called) ∧
    (∀ s' : Set_ W,
       dom s' = dom s →
       (∀ name, mf o name = false → s' !! name = s !! name) →
       Write keys s' f o mf = Some f').
Proof.
  intros Hk. exists (foldl (invoke s o) f (written_names s o mf)).
  exists (written_names s o mf).
  split; [by apply Write_traced|]. split; [by apply Write_spec|].
  split; [apply written_names_NoDup|].
  split; [apply elem_of_written_names|].
  split.
  { intros name Hmf [_ Hin]%elem_of_written_names. congruence. }
  split.
  { intros count Hone. apply foldl_invoke_count; [|done].
    intros name Hin. by apply elem_of_written_names in Hin as [? _]. }
  intros s' Hdom Hagree.
  rewrite (Write_spec keys s') by (by apply (range_order_dom s)).
  unfold written_names. rewrite (sorted_names_dom s s') by done.
  f_equal. apply foldl_invoke_agree.
  intros name [Hmf _]%list_elem_of_filter. by apply Hagree.
Qed.

(** C6: for an object with no methods defined yet, two runs of [Write]
    over the same registry, file and filter return the same output, the
    generators called in the same order, whatever order the map is iterated
    in on each run. *)
Theorem Write_deterministic s keys1 keys2 f o fs filename :
  pointerMethodSet o = [] →
  range_order s keys1 →
  range_order s keys2 →
  ∃ f' called,
    Write keys1 (traced s) (f, []) o (DefinedOutside fs filename)
      = Some (f', called) ∧
    Write keys2 (traced s) (f, []) o (DefinedOutside fs filename)
      = Some (f', called) ∧
    Write keys1 s f o (DefinedOutside fs filename) = Some f' ∧
    Write keys2 s f o (DefinedOutside fs filename) = Some f' ∧
    called = sort_Strings (map_to_list s).*1.
Proof.
  intros Hnone Hk1 Hk2.
  exists (foldl (invoke s o) f (sorted_names s)), (sorted_names s).
  assert (written_names s o (DefinedOutside fs filename) = sorted_names s)
    as Hall.
  { apply written_names_unfiltered. intros name _.
    apply not_true_is_false. rewrite DefinedOutside_spec, Hnone.
    intros (sel & Hin & _). by apply elem_of_nil in Hin. }
  rewrite <-Hall at 1 2.
  rewrite !Write_traced, !Write_spec by done. by rewrite Hall.
Qed.

End Write_claims.

(** ** The generators *)

Section string_facts.

Lemma append_String (c : Ascii.ascii) (p s : string) :
  String c p +:+ s = String c (p +:+ s).
Proof. reflexivity. Qed.

Lemma substring_all (s : string) : String.substring 0 (String.length s) s = s.
Proof. induction s as [|c s IH]; simpl; [done|]. by rewrite IH. Qed.

Lemma substring_split (s : string) (n : nat) :
  n ≤ String.length s →
  s = String.substring 0 n s +:+ String.substring n (String.length s - n) s.
Proof.
  revert n. induction s as [|c s IH]; intros [|n] Hn; simpl in *; try lia.
  - done.
  - by rewrite substring_all.
  - rewrite append_String. f_equal. apply IH. lia.
Qed.

Lemma substring_app_r (p s : string) :
  String.substring (String.length p) (String.length s) (p +:+ s) = s.
Proof.
  induction p as [|c p IH]; [apply substring_all|].
  rewrite append_String. exact IH.
Qed.

Lemma string_length_app (p s : string) :
  String.length (p +:+ s) = String.length p + String.length s.
Proof.
  induction p as [|c p IH]; [done|].
  rewrite append_String. simpl. by rewrite IH.
Qed.

(** [HasSuffix] holds exactly of the strings that end with the suffix. *)
Lemma HasSuffix_spec (s suffix : string) :
  strings.HasSuffix s suffix = true ↔ ∃ p, s = p +:+ suffix.
Proof.
  unfold strings.HasSuffix, strings.slice_from.
  rewrite andb_true_iff, Nat.leb_le, String.eqb_eq. split.
  - intros [Hlen Heq]. eexists.
    rewrite (substring_split s (String.length s - String.length suffix)) at 1
      by lia.
    by rewrite Heq.
  - intros [p ->]. rewrite string_length_app. split; [lia|].
    replace (String.length p + String.length suffix - String.length suffix)
      with (String.length p) by lia.
    replace (String.length p + String.length suffix - String.length p)
      with (String.length suffix) by lia.
    apply substring_app_r.
Qed.

Lemma TrimSuffix_no_suffix (s suffix : string) :
  (¬ ∃ p, s = p +:+ suffix) → strings.TrimSuffix s suffix = s.
Proof.
  intros Hno. unfold strings.TrimSuffix.
  destruct (strings.HasSuffix s suffix) eqn:Hs; [|done].
  by apply HasSuffix_spec in Hs.
Qed.

Lemma TrimSuffix_suffix (p suffix : string) :
  strings.TrimSuffix (p +:+ suffix) suffix = p.
Proof.
  unfold strings.TrimSuffix.
  destruct (strings.HasSuffix (p +:+ suffix) suffix) eqn:Hs.
  - unfold strings.slice_to. rewrite string_length_app.
    replace (String.length p + String.length suffix - String.length suffix)
      with (String.length p) by lia.
    clear Hs. induction p as [|c p IH].
    + by destruct suffix.
    + rewrite append_String. simpl. by rewrite IH.
  - apply not_true_iff_false in Hs. destruct Hs. apply HasSuffix_spec. by eexists.
Qed.

End string_facts.

Section generator_facts.

(** A pointer-receiver method that the type checker records for a named
    type is in the method set of the pointer to that type, where the
    filter looks for it. *)
Lemma declared_method_visible (d : MethodDecl) (pos : token.Pos)
    (o : types.Object) (name : string) (methods : list types.Method) :
  types.Type__ o = types.Named name methods →
  declared_method d pos ∈ methods →
  {| types.Obj := types.MethodObj (declared_method d pos) |} ∈ pointerMethodSet o.
Proof.
  intros Ht Hin. unfold pointerMethodSet. rewrite Ht.
  cbn [types.NewPointer types.NewMethodSet].
  apply list_elem_of_fmap. by exists (declared_method d pos).
Qed.

(** Every Get generator of the family but [NewGetCondition] writes a method
    with no parameters, a return type and a body that returns the field. *)
Lemma get_family_getters (g : Generator) (f : jen.File) (o : types.Object) :
  get_family g = true →
  (∀ receiver runtime, g ≠ GetCondition receiver runtime) →
  ∃ text stmt d,
    generate g f o = f ++ [[jen.Comment text]; stmt] ∧
    read_method stmt = Some d ∧
    decl_params d = [] ∧
    has_return_type d = true ∧
    returns_field d = true ∧
    assigns d = false.
Proof.
  intros Hfam Hnot.
  destruct g; try discriminate Hfam; try (by destruct (Hnot receiver runtime));
    (eexists _, _, _; split;
      [unfold generate; cbv beta delta [NewGetBindingPhase NewGetClaimReference
         NewGetResourceReference NewGetNonPortableClassReference
         NewGetPortableClassReference NewGetWriteConnectionSecretToReference
         NewGetReclaimPolicy jen.AddFunc jen.Commentf] zeta;
       rewrite <-app_assoc; reflexivity
      |split; [reflexivity|];
       split; [reflexivity|]; split; [reflexivity|];
       split; [simpl; apply String.eqb_refl|reflexivity]]).
Qed.

End generator_facts.

(** C7: of the Get generators of the accessor and mutator family,
    [NewGetCondition] writes a method that has no return type and returns
    nothing: its declaration is that of [NewSetConditions] with the name
    changed. *)
Theorem NewGetCondition_returns_nothing :
  let o := {| types.Name := "Bucket"; types.Type__ := types.Named "Bucket" [] |} in
  NewGetCondition "b" "runtime" [] o =
    [[jen.Comment "GetCondition of this Bucket."];
     [jen.Func;
      jen.Params [[jen.Id "b"; jen.Op "*"; jen.Id "Bucket"]];
      jen.Id "GetCondition";
      jen.Params [[jen.Id "c"; jen.Op "..."; jen.Qual "runtime" "Condition"]];
      jen.Block [
        [jen.Id "b"; jen.Dot "Status"; jen.Dot "GetCondition";
         jen.Call [[jen.Id "c"; jen.Op "..."]]]]]] ∧
  get_family (GetCondition "b" "runtime") = true ∧
  (has_return_type <$> methods_of_file (NewGetCondition "b" "runtime" [] o))
    = [false] ∧
  (returns_field <$> methods_of_file (NewGetCondition "b" "runtime" [] o))
    = [false] ∧
  ∀ receiver runtime f o',
    ∃ text stmt d,
      NewGetCondition receiver runtime f o' = f ++ [[jen.Comment text]; stmt] ∧
      read_method stmt = Some d ∧
      decl_params d ≠ [] ∧
      has_return_type d = false ∧
      returns_field d = false.
Proof.
  intros o. split; [reflexivity|]. split; [reflexivity|].
  split; [reflexivity|]. split; [reflexivity|].
  intros receiver runtime f o'. eexists _, _, _. split.
  - unfold NewGetCondition, jen.AddFunc, jen.Commentf.
    rewrite <-app_assoc. reflexivity.
  - repeat split; done.
Qed.

(** C9: every generator writes a method whose receiver clause is
    [receiver *TypeName], for every object and configuration; the type
    checker files such a method in the method set of the pointer type, which
    is the one [DefinedOutside] scans, so on a later pass the filter finds
    it. *)
Theorem generators_pointer_receiver (g : Generator) (f : jen.File)
    (o : types.Object) :
  ∃ text rest d,
    generate g f o =
      f ++ [[jen.Comment text];
            jen.Func
              :: jen.Params [[jen.Id (receiver_of g); jen.Op "*";
                              jen.Id (types.Name o)]]
              :: jen.Id (method_of g) :: rest] ∧
    read_method
      (jen.Func
         :: jen.Params [[jen.Id (receiver_of g); jen.Op "*";
                         jen.Id (types.Name o)]]
         :: jen.Id (method_of g) :: rest) = Some d ∧
    recv_name d = receiver_of g ∧
    recv_pointer d = true ∧
    recv_type d = types.Name o ∧
    decl_name d = method_of g ∧
    ∀ pos methods o' fs filename,
      types.Type__ o' = types.Named (recv_type d) methods →
      declared_method d pos ∈ methods →
      {| types.Obj := types.MethodObj (declared_method d pos) |}
        ∈ pointerMethodSet o' ∧
      (token.Filename (token.Position_ fs pos) ≠ filename →
       DefinedOutside fs filename o' (method_of g) = true).
Proof.
  assert (∀ d : MethodDecl, decl_name d = method_of g →
    ∀ pos methods o' fs filename,
      types.Type__ o' = types.Named (recv_type d) methods →
      declared_method d pos ∈ methods →
      {| types.Obj := types.MethodObj (declared_method d pos) |}
        ∈ pointerMethodSet o' ∧
      (token.Filename (token.Position_ fs pos) ≠ filename →
       DefinedOutside fs filename o' (method_of g) = true)) as Hvisible.
  { intros d Hname pos methods o' fs filename Ht Hin.
    pose proof (declared_method_visible d pos o' _ methods Ht Hin) as Hsel.
    split; [done|]. intros Hfile. apply DefinedOutside_spec.
    eexists. split; [exact Hsel|]. split; [exact Hname|exact Hfile]. }
  destruct g; simpl generate; simpl receiver_of; simpl method_of in *;
    (eexists _, _, _; split;
      [cbv beta delta [NewSetConditions NewGetCondition NewSetBindingPhase
         NewGetBindingPhase NewSetClaimReference NewGetClaimReference
         NewSetResourceReference NewGetResourceReference
         NewSetNonPortableClassReference NewGetNonPortableClassReference
         NewSetPortableClassReference NewGetPortableClassReference
         NewSetWriteConnectionSecretToReference
         NewGetWriteConnectionSecretToReference NewSetReclaimPolicy
         NewGetReclaimPolicy NewSetPortableClassItems NewGetPortableClassItems
         jen.AddFunc jen.Commentf] zeta;
       rewrite <-app_assoc; reflexivity
      |split; [reflexivity|];
       split; [reflexivity|]; split; [reflexivity|]; split; [reflexivity|];
       split; [reflexivity|]; apply Hvisible; reflexivity]).
Qed.

(** C10: when the name of the container type does not end with "List",
    [NewSetPortableClassItems] takes the name itself as the element type,
    and writes the method all the same. *)
Theorem NewSetPortableClassItems_without_List (receiver resource : string)
    (f : jen.File) (o : types.Object) :
  (¬ ∃ prefix, types.Name o = prefix +:+ "List") →
  strings.TrimSuffix (types.Name o) "List" = types.Name o ∧
  NewSetPortableClassItems receiver resource f o =
    f ++ [
      [jen.Comment ("SetPortableClassItems of this " +:+ types.Name o +:+ ".")];
      [jen.Func;
       jen.Params [[jen.Id receiver; jen.Op "*"; jen.Id (types.Name o)]];
       jen.Id "SetPortableClassItems";
       jen.Params [[jen.Id "i"; jen.Index []; jen.Qual resource "PortableClass"]];
       jen.Block [
         [jen.Id receiver; jen.Dot "Items"; jen.Op "=";
          jen.Make [[jen.Index []; jen.Id (types.Name o)]; [jen.Id "0"];
                    [jen.Len [jen.Id "i"]]]];
         [jen.For [[jen.Id "j"; jen.Op ":="; jen.Range; jen.Id "i"]];
          jen.Block [
            [jen.If [
               [jen.List [[jen.Id "actual"]; [jen.Id "ok"]]; jen.Op ":=";
                jen.Id "i"; jen.Index [[jen.Id "j"]];
                jen.Assert [jen.Op "*"; jen.Id (types.Name o)]];
               [jen.Id "ok"]];
             jen.Block [
               [jen.Id receiver; jen.Dot "Items"; jen.Op "=";
                jen.Append [[jen.Id receiver; jen.Dot "Items"];
                            [jen.Op "*"; jen.Id "actual"]]]
             ]]
          ]]
       ]]].
Proof.
  intros Hno. pose proof (TrimSuffix_no_suffix _ _ Hno) as Htrim.
  split; [done|].
  unfold NewSetPortableClassItems, jen.AddFunc, jen.Commentf.
  rewrite Htrim, <-app_assoc. reflexivity.
Qed.

(** ** The generated [PortableClassItems] methods *)

Section generated_facts.

Import generated.

Context {Elem : Type}.
Variable zero : Elem.
Variable growcap : nat → nat → nat.

Implicit Types (st : @State Elem) (s : Slice) (i items : list PortableClass).

Local Ltac run := unfold mbind, M_bind, mret, M_ret.

(** *** [GetPortableClassItems] *)

Lemma GetPortableClassItems_loop_run element m k done st :
  length done = k →
  k + m = len (Items st) →
  GetPortableClassItems_loop element (seq k m)
    (done ++ replicate m nil_interface) st =
  Some (done ++ views element (Items st) (seq k m), st).
Proof.
  revert k done. induction m as [|m IH]; intros k done Hdone Hlen.
  - done.
  - cbn [seq GetPortableClassItems_loop]. run. unfold get_Items at 1.
    unfold address_of. rewrite decide_True by lia. run.
    unfold assign_index. rewrite decide_True
      by (rewrite length_app, length_replicate; lia). run.
    rewrite insert_app_r_alt by lia.
    replace (k - length done) with 0 by lia. cbn [replicate].
    change (<[0:=?x]> (?y :: ?l)) with (x :: l).
    rewrite (cons_middle _ done), app_assoc.
    rewrite IH by (rewrite ?length_app; simpl; lia).
    unfold views. cbn [fmap list_fmap]. by rewrite <-app_assoc.
Qed.

Lemma GetPortableClassItems_run element st :
  GetPortableClassItems element st =
    Some (views element (Items st) (seq 0 (len (Items st))), st).
Proof.
  unfold GetPortableClassItems. run. unfold get_Items. 
  pose proof (GetPortableClassItems_loop_run element (len (Items st)) 0 [] st)
    as Hloop.
  simpl in Hloop. rewrite Hloop by done. done.
Qed.

Lemma views_length element s ks : length (views element s ks) = length ks.
Proof. unfold views. by rewrite length_fmap. Qed.

Lemma views_lookup element s n k :
  k < n →
  views element s (seq 0 n) !! k = Some (pointer_to element (element_addr s k)).
Proof.
  intros Hk. unfold views. rewrite list_lookup_fmap.
  by rewrite lookup_seq_lt.
Qed.

(** Reading through the address of [Items[k]] reads the element, and
    writing through it writes the element of the slice. *)
Lemma element_addr_load st k xs :
  contents (heap st) (Items st) = Some xs →
  k < len (Items st) →
  ∃ v, xs !! k = Some v ∧ load (element_addr (Items st) k) st = Some (v, st).
Proof.
  unfold contents, element_addr, load. intros Hxs Hk.
  destruct (array (Items st)) as [[b off]|].
  - destruct (heap st !! b) as [blk|]; [|done].
    case_decide; [|done]. simplify_eq.
    destruct (lookup_lt_is_Some_2 blk (off + k) ltac:(lia)) as [v Hv].
    exists v. rewrite Hv. split; [|done].
    rewrite lookup_take_lt by done. by rewrite lookup_drop.
  - case_decide; [lia|done].
Qed.

Lemma element_addr_store st k v xs :
  contents (heap st) (Items st) = Some xs →
  k < len (Items st) →
  ∃ st', store (element_addr (Items st) k) v st = Some (tt, st') ∧
         Items st' = Items st ∧
         contents (heap st') (Items st') = Some (<[k := v]> xs).
Proof.
  unfold contents, element_addr, store. intros Hxs Hk.
  destruct (array (Items st)) as [[b off]|] eqn:Harr.
  - destruct (heap st !! b) as [blk|]; [|done].
    case_decide; [|done]. simplify_eq.
    rewrite decide_True by lia. eexists. split; [done|]. split; [done|].
    simpl. rewrite Harr, lookup_insert_eq.
    rewrite decide_True by (rewrite length_insert; lia). f_equal.
    rewrite drop_insert_ge by lia.
    replace (off + k - off) with k by lia.
    by rewrite take_insert_lt by lia.
  - case_decide; [lia|done].
Qed.



(** *** [SetPortableClassItems] *)

Lemma narrowed_length element (h : gmap nat (list Elem)) i :
  length (narrowed element h i) ≤ length i.
Proof.
  unfold narrowed. induction i as [|x i IH]; csimpl; [lia|].
  destruct (assert_pointer element x) as [p [|]]; [|lia].
  destruct (deref h p); simpl; lia.
Qed.

Lemma narrowed_take_S element (h : gmap nat (list Elem)) i k x :
  i !! k = Some x →
  narrowed element h (take (S k) i) =
    narrowed element h (take k i) ++ narrowed element h [x].
Proof.
  intros Hx. unfold narrowed. by rewrite (take_S_r _ _ _ Hx), omap_app.
Qed.

Lemma narrowed_valid_lookup element (h : gmap nat (list Elem)) i k x p :
  narrowed_valid element h i = true →
  i !! k = Some x →
  assert_pointer element x = (p, true) →
  is_Some (deref h p).
Proof.
  unfold narrowed_valid. revert k.
  induction i as [|y i IH]; intros k Hv Hx Hp; [done|].
  simpl in Hv. apply andb_true_iff in Hv as [Hy Hv].
  destruct k as [|k]; simpl in Hx.
  - simplify_eq. rewrite Hp in Hy. by apply bool_decide_eq_true in Hy.
  - by apply (IH k).
Qed.

Lemma SetPortableClassItems_step element i h b k x :
  b ∉ dom h →
  narrowed_valid element h i = true →
  i !! k = Some x →
  SetPortableClassItems_body zero growcap element i k
    (appended zero h b (length i) (narrowed element h (take k i))) =
  Some (tt, appended zero h b (length i) (narrowed element h (take (S k) i))).
Proof.
  intros Hb Hvalid Hx.
  pose proof (lookup_lt_Some _ _ _ Hx) as Hk.
  pose proof (narrowed_length element h (take k i)) as Hlen.
  rewrite length_take in Hlen.
  rewrite (narrowed_take_S element h i k x Hx).
  unfold SetPortableClassItems_body. run. unfold index. rewrite Hx. run.
  unfold narrowed at 3. cbn [omap list_omap].
  destruct (assert_pointer element x) as [p [|]] eqn:Hp.
  - destruct (narrowed_valid_lookup element h i k x p Hvalid Hx Hp) as [v Hv].
    rewrite Hv. unfold get_Items at 1. cbn [appended Items].
    (* [*actual] reads the store as it was before the call *)
    assert (load p (appended zero h b (length i) (narrowed element h (take k i)))
            = Some (v, appended zero h b (length i) (narrowed element h (take k i))))
      as ->.
    { unfold load, deref in *. destruct p as [[b' j]|]; [|done].
      cbn [appended heap].
      destruct (h !! b') as [blk|] eqn:Hblk; [|done]. simpl in Hv.
      rewrite lookup_insert_ne
        by (intros ->; apply Hb, elem_of_dom; by eexists).
      by rewrite Hblk, Hv. }
    (* the capacity allows the append in place *)
    unfold append. cbn [len cap]. rewrite decide_True by lia. run.
    unfold store, element_addr. cbn [array appended heap len cap].
    rewrite lookup_insert_eq.
    rewrite decide_True by (rewrite length_app, length_replicate; lia).
    unfold set_Items. cbn [heap]. do 2 f_equal.
    unfold appended. rewrite insert_insert_eq, length_app. cbn [length].
    f_equal; [|f_equal; lia]. f_equal.
    rewrite Nat.add_0_l, insert_app_r_alt by lia.
    rewrite Nat.sub_diag, <-app_assoc. f_equal.
    destruct (length i - length (narrowed element h (take k i))) as [|m] eqn:Hm;
      [lia|].
    cbn [replicate app]. change (<[0:=?a]> (?y :: ?l)) with (a :: l).
    do 2 f_equal. lia.
  - by rewrite app_nil_r.
Qed.

Lemma SetPortableClassItems_loop element i h b m k :
  b ∉ dom h →
  narrowed_valid element h i = true →
  k + m = length i →
  for_range (seq k m) (SetPortableClassItems_body zero growcap element i)
    (appended zero h b (length i) (narrowed element h (take k i))) =
  Some (tt, appended zero h b (length i) (narrowed element h i)).
Proof.
  intros Hb Hvalid. revert k. induction m as [|m IH]; intros k Hkm.
  - cbn [seq for_range]. run. by rewrite take_ge by lia.
  - cbn [seq for_range]. run.
    destruct (lookup_lt_is_Some_2 i k ltac:(lia)) as [x Hx].
    rewrite (SetPortableClassItems_step element i h b k x Hb Hvalid Hx).
    apply IH. lia.
Qed.

(** With every narrowed pointer valid, [narrowed] has one element for
    each element of [i] that narrows, in the order of [i]: the value it
    points to. *)
Lemma narrowed_exact element (h : gmap nat (list Elem)) i :
  narrowed_valid element h i = true →
  Forall2 (λ x v, ∃ p, assert_pointer element x = (p, true) ∧ deref h p = Some v)
    (filter (λ x, (assert_pointer element x).2 = true) i)
    (narrowed element h i).
Proof.
  unfold narrowed_valid, narrowed.
  induction i as [|x i IH]; intros Hv; csimpl; [constructor|].
  simpl in Hv. apply andb_true_iff in Hv as [Hx Hv].
  rewrite filter_cons.
  destruct (assert_pointer element x) as [p [|]] eqn:Hp; simpl.
  - apply bool_decide_eq_true in Hx as [v Hv'].
    rewrite Hv'. constructor; [|by apply IH].
    by exists p.
  - by apply IH.
Qed.


End generated_facts.

(** ** The theorems at concrete inputs *)

Section examples_facts.

Import examples.

(** The three properties of the filter on a hand-written method, a missing
    method and a method of the file being generated. *)
Example DefinedOutside_hand_written :
  DefinedOutside file_set "zz_generated.go" bucket_with_methods "SetConditions"
    = true.
Proof. reflexivity. Qed.

Example DefinedOutside_no_match :
  DefinedOutside file_set "zz_generated.go" bucket_with_methods "Validate"
    = false.
Proof. reflexivity. Qed.

Example DefinedOutside_same_file :
  DefinedOutside file_set "zz_generated.go" bucket_with_methods "GetBindingPhase"
    = false.
Proof. reflexivity. Qed.

Lemma foo_registry_order :
  range_order foo_registry ["SetFoo"; "AddFoo"; "GetFoo"].
Proof. unfold range_order. apply (bool_decide_unpack _). vm_compute. exact I. Defined.

Lemma foo_registry_order' :
  range_order foo_registry ["GetFoo"; "SetFoo"; "AddFoo"].
Proof. unfold range_order. apply (bool_decide_unpack _). vm_compute. exact I. Defined.

Lemma bucket_registry_order :
  range_order bucket_registry
    ["SetConditions"; "SetBindingPhase"; "GetBindingPhase"].
Proof. unfold range_order. apply (bool_decide_unpack _). vm_compute. exact I. Defined.

Lemma Write_sorted_order_witness :
  range_order foo_registry ["SetFoo"; "AddFoo"; "GetFoo"] ∧
  ∃ f' visited,
    Write ["SetFoo"; "AddFoo"; "GetFoo"] (traced foo_registry) ([], [])
      bucket (λ _ _, false) = Some (f', visited) ∧
    Write ["SetFoo"; "AddFoo"; "GetFoo"] foo_registry [] bucket (λ _ _, false)
      = Some f' ∧
    visited = ["AddFoo"; "GetFoo"; "SetFoo"] ∧
    f' = ["add"; "get"; "set"].
Proof.
  split; [exact foo_registry_order|].
  destruct (Write_sorted_order foo_registry ["SetFoo"; "AddFoo"; "GetFoo"] []
              bucket (λ _ _, false) foo_registry_order)
    as (f' & visited & Htraced & Hwrite & _ & _ & Hfoo).
  exists f', visited. split; [exact Htraced|]. split; [exact Hwrite|].
  exact (Hfoo _ _ _ eq_refl (λ _, eq_refl)).
Defined.

Lemma Write_skips_filtered_witness :
  range_order bucket_registry
    ["SetConditions"; "SetBindingPhase"; "GetBindingPhase"] ∧
  ∃ f' called,
    Write ["SetConditions"; "SetBindingPhase"; "GetBindingPhase"]
      (traced bucket_registry) ([], []) bucket_with_methods
      (DefinedOutside file_set "zz_generated.go") = Some (f', called) ∧
    ("SetConditions" ∉ called) ∧
    ("GetBindingPhase" ∈ called ∧ "SetBindingPhase" ∈ called).
Proof.
  split; [exact bucket_registry_order|].
  destruct (Write_skips_filtered bucket_registry
              ["SetConditions"; "SetBindingPhase"; "GetBindingPhase"] []
              bucket_with_methods (DefinedOutside file_set "zz_generated.go")
              bucket_registry_order)
    as (f' & called & Htraced & _ & _ & Hin & Hout & _).
  exists f', called. split; [exact Htraced|]. split.
  - apply Hout. reflexivity.
  - split; apply Hin; (split; [eexists; reflexivity|reflexivity]).
Defined.

Lemma Write_deterministic_witness :
  ∃ f' called,
    Write ["SetFoo"; "AddFoo"; "GetFoo"] (traced foo_registry) ([], []) bucket
      (DefinedOutside file_set "zz_generated.go") = Some (f', called) ∧
    Write ["GetFoo"; "SetFoo"; "AddFoo"] (traced foo_registry) ([], []) bucket
      (DefinedOutside file_set "zz_generated.go") = Some (f', called).
Proof.
  destruct (Write_deterministic foo_registry ["SetFoo"; "AddFoo"; "GetFoo"]
              ["GetFoo"; "SetFoo"; "AddFoo"] [] bucket file_set
              "zz_generated.go" eq_refl foo_registry_order foo_registry_order')
    as (f' & called & H1 & H2 & _).
  exists f', called. split; [exact H1|exact H2].
Defined.


(** An element that narrows to [*T] and holds the nil pointer makes the
    method panic at [*actual]. *)
Example SetPortableClassItems_nil_pointer_panics :
  generated.SetPortableClassItems 0 double_capacity "T"
    [generated.pointer_to "T" None] store0 = None.
Proof. reflexivity. Qed.

(** Set, then Get, on three elements of which one does not narrow: views
    of the two that do, in their order. *)
Example PortableClassItems_round_trip :
  fst <$> (generated.SetPortableClassItems 0 double_capacity "T" three_items;;
           generated.GetPortableClassItems "T") store0 =
  Some [generated.pointer_to "T" (Some (1, 0));
        generated.pointer_to "T" (Some (1, 1))].
Proof. vm_compute. reflexivity. Qed.

Lemma bucket_has_no_List_suffix :
  ¬ ∃ prefix, types.Name bucket = prefix +:+ "List".
Proof.
  intros Hsuffix. apply HasSuffix_spec in Hsuffix. discriminate Hsuffix.
Defined.

Lemma NewSetPortableClassItems_without_List_witness :
  (¬ ∃ prefix, types.Name bucket = prefix +:+ "List") ∧
  strings.TrimSuffix (types.Name bucket) "List" = "Bucket" ∧
  length (NewSetPortableClassItems "b" "resource" [] bucket) = 2.
Proof.
  split; [exact bucket_has_no_List_suffix|].
  destruct (NewSetPortableClassItems_without_List "b" "resource" [] bucket
              bucket_has_no_List_suffix) as [Htrim Hfile].
  split; [exact Htrim|]. rewrite Hfile. reflexivity.
Defined.

End examples_facts.

(** ** More on the registry *)

Section Write_more.

Context {W : Type}.
Implicit Types (s : Set_ W) (f : W) (o : types.Object) (mf : Filter).

Lemma filter_none {A} (P : A → Prop) `{∀ x, Decision (P x)} (l : list A) :
  (∀ x, x ∈ l → ¬ P x) → filter P l = [].
Proof.
  induction l as [|x l IH]; intros Hnone; [done|].
  rewrite filter_cons_False by (apply Hnone; rewrite elem_of_cons; by left).
  apply IH. intros y Hy. apply Hnone. rewrite elem_of_cons. by right.
Qed.

Lemma filter_agree {A} (P Q : A → Prop) `{∀ x, Decision (P x)}
    `{∀ x, Decision (Q x)} (l : list A) :
  (∀ x, x ∈ l → (P x ↔ Q x)) → filter P l = filter Q l.
Proof.
  induction l as [|x l IH]; intros Hagree; [done|].
  assert (filter P l = filter Q l) as Hl.
  { apply IH. intros y Hy. apply Hagree. rewrite elem_of_cons. by right. }
  assert (P x ↔ Q x) as Hx by (apply Hagree; rewrite elem_of_cons; by left).
  rewrite !filter_cons, Hl.
  destruct (decide (P x)) as [HP|HP], (decide (Q x)) as [HQ|HQ]; tauto.
Qed.

(** Two sorted lists of names with the same elements, none repeated, are
    the same list. *)
Lemma sorted_names_eq (l1 l2 : list string) :
  Sorted String.le l1 → Sorted String.le l2 → NoDup l1 → NoDup l2 →
  (∀ name, name ∈ l1 ↔ name ∈ l2) → l1 = l2.
Proof.
  intros Hs1 Hs2 Hn1 Hn2 Hin. apply (Sorted_unique String.le); [done..|].
  by apply NoDup_Permutation.
Qed.

Lemma sorted_names_Sorted s : Sorted String.le (sorted_names s).
Proof. apply sort_Strings_Sorted. Qed.

Lemma Write_nothing_written s keys f o mf :
  range_order s keys →
  (∀ name, is_Some (s !! name) → mf o name = true) →
  Write keys s f o mf = Some f.
Proof.
  intros Hk Hall. rewrite (Write_spec keys) by done.
  unfold written_names. rewrite filter_none; [done|].
  intros name Hin%elem_of_sorted_names Hmf. rewrite (Hall name Hin) in Hmf.
  discriminate.
Qed.

(** X1: when the filter holds back every registered name, [Write] calls
    no generator and returns the file as it was. *)
Theorem Write_all_filtered s keys f o mf :
  range_order s keys →
  (∀ name, is_Some (s !! name) → mf o name = true) →
  Write keys s f o mf = Some f.
Proof. apply Write_nothing_written. Qed.

Lemma sorted_names_filter s o mf :
  sorted_names (filter (λ kv : string * New W, mf o kv.1 = false) s) =
  written_names s o mf.
Proof.
  apply sorted_names_eq.
  - apply sorted_names_Sorted.
  - apply written_names_Sorted.
  - apply NoDup_sorted_names.
  - apply written_names_NoDup.
  - intros name. rewrite elem_of_sorted_names, elem_of_written_names.
    split.
    + intros [new [Hnew Hmf]%map_lookup_filter_Some]. split; [by eexists|done].
    + intros [[new Hnew] Hmf]. exists new. by apply map_lookup_filter_Some.
Qed.

(** X2: writing with a filter is writing, unfiltered, the registry
    without the entries that the filter holds back. *)
Theorem Write_filter_restricts s keys keys' f o mf :
  range_order s keys →
  range_order (filter (λ kv : string * New W, mf o kv.1 = false) s) keys' →
  Write keys s f o mf =
  Write keys' (filter (λ kv : string * New W, mf o kv.1 = false) s) f o
    (λ _ _, false).
Proof.
  intros Hk Hk'. rewrite (Write_spec keys), (Write_spec keys') by done.
  rewrite (written_names_unfiltered _ o (λ _ _, false))
    by (intros ? ?; reflexivity).
  rewrite sorted_names_filter. f_equal. symmetry. apply foldl_invoke_agree.
  intros name [Hreg Hmf]%elem_of_written_names.
  destruct Hreg as [new Hnew]. rewrite Hnew.
  by apply map_lookup_filter_Some.
Qed.

Lemma sorted_names_union (s1 s2 : Set_ W) :
  s1 ##ₘ s2 →
  (∀ k1 k2, is_Some (s1 !! k1) → is_Some (s2 !! k2) → String.le k1 k2) →
  sorted_names (s1 ∪ s2) = sorted_names s1 ++ sorted_names s2.
Proof.
  intros Hdisj Hle. apply sorted_names_eq.
  - apply sorted_names_Sorted.
  - apply Sorted.StronglySorted_Sorted, StronglySorted_app_2.
    + intros k1 k2 H1%elem_of_sorted_names H2%elem_of_sorted_names.
      by apply Hle.
    + apply (Sorted_StronglySorted String.le), sorted_names_Sorted.
    + apply (Sorted_StronglySorted String.le), sorted_names_Sorted.
  - apply NoDup_sorted_names.
  - apply NoDup_app. split; [apply NoDup_sorted_names|].
    split; [|apply NoDup_sorted_names].
    intros name [new1 H1]%elem_of_sorted_names [new2 H2]%elem_of_sorted_names.
    by apply (map_disjoint_spec s1 s2) with name new1 new2.
  - intros name. rewrite elem_of_app, !elem_of_sorted_names.
    by rewrite lookup_union_is_Some.
Qed.

Lemma range_order_elem s keys name :
  range_order s keys → name ∈ keys ↔ is_Some (s !! name).
Proof.
  unfold range_order. intros ->.
  rewrite <-elem_of_sorted_names. unfold sorted_names.
  by rewrite sort_Strings_Permutation.
Qed.

(** X3: when every name of one registry sorts before every name of
    another, writing their union is writing the first, then the second. *)
Theorem Write_union_in_order (s1 s2 : Set_ W) keys keys1 keys2 f o mf :
  range_order (s1 ∪ s2) keys →
  range_order s1 keys1 →
  range_order s2 keys2 →
  Forall (λ k1, Forall (λ k2, String.le k1 k2 ∧ k1 ≠ k2) keys2) keys1 →
  Write keys (s1 ∪ s2) f o mf =
  Write keys1 s1 f o mf ≫= λ f1, Write keys2 s2 f1 o mf.
Proof.
  intros Hk Hk1 Hk2 Hlt.
  assert (∀ k1 k2, is_Some (s1 !! k1) → is_Some (s2 !! k2) →
                   String.le k1 k2 ∧ k1 ≠ k2) as Hle.
  { intros k1 k2 H1%(range_order_elem s1 keys1) H2%(range_order_elem s2 keys2);
      [|done..].
    rewrite Forall_forall in Hlt. specialize (Hlt k1 H1).
    rewrite Forall_forall in Hlt. by apply Hlt. }
  assert (s1 ##ₘ s2) as Hdisj.
  { apply map_disjoint_spec. intros k new1 new2 H1 H2.
    by destruct (Hle k k) as [_ []]. }
  rewrite (Write_spec keys), (Write_spec keys1) by done. simpl.
  rewrite (Write_spec keys2) by done. f_equal.
  unfold written_names.
  rewrite sorted_names_union by (done || intros; by apply Hle).
  rewrite filter_app, foldl_app.
  rewrite (foldl_invoke_agree s1 (s1 ∪ s2) o
             (filter (λ name, mf o name = false) (sorted_names s1)) f).
  - apply (foldl_invoke_agree s2 (s1 ∪ s2)).
    intros name [_ [new Hnew]%elem_of_sorted_names]%list_elem_of_filter.
    rewrite Hnew. apply lookup_union_Some_r; done.
  - intros name [_ [new Hnew]%elem_of_sorted_names]%list_elem_of_filter.
    rewrite Hnew. by apply lookup_union_Some_l.
Qed.

End Write_more.

(** ** More on the generators and the filter *)

Local Ltac unfold_generators :=
  cbv beta delta [generate NewSetConditions NewGetCondition NewSetBindingPhase
    NewGetBindingPhase NewSetClaimReference NewGetClaimReference
    NewSetResourceReference NewGetResourceReference
    NewSetNonPortableClassReference NewGetNonPortableClassReference
    NewSetPortableClassReference NewGetPortableClassReference
    NewSetWriteConnectionSecretToReference
    NewGetWriteConnectionSecretToReference NewSetReclaimPolicy
    NewGetReclaimPolicy NewSetPortableClassItems NewGetPortableClassItems
    jen.AddFunc jen.Commentf] iota zeta.

Section generators_more.

Implicit Types (g : Generator) (f : jen.File) (o : types.Object).

(** What every generator adds to the file: a comment and one declaration,
    of a method of the pointer to the type of the object. *)
Lemma generate_shape g f o :
  ∃ stmt d,
    generate g f o =
      f ++ [[jen.Comment (method_of g +:+ " of this " +:+ types.Name o +:+ ".")];
            stmt] ∧
    read_method stmt = Some d ∧
    decl_name d = method_of g ∧
    recv_name d = receiver_of g ∧
    recv_pointer d = true ∧
    recv_type d = types.Name o.
Proof.
  destruct g; (eexists _, _; split;
    [unfold_generators; rewrite <-app_assoc; reflexivity
    |repeat split; reflexivity]).
Qed.

(** A generator reads the name of the object and nothing else of it. *)
Lemma generate_name_only g f o o' :
  types.Name o = types.Name o' → generate g f o = generate g f o'.
Proof. intros Hname. destruct g; unfold_generators; by rewrite Hname. Qed.

Lemma methods_of_file_app f1 f2 :
  methods_of_file (f1 ++ f2) = methods_of_file f1 ++ methods_of_file f2.
Proof. apply omap_app. Qed.

Lemma invoke_generated (s : Set_ jen.File) o f name :
  generated_registry s → is_Some (s !! name) →
  ∃ g, invoke s o f name = generate g f o ∧ method_of g = name.
Proof.
  intros Hs [new Hnew]. destruct (Hs name new Hnew) as (g & -> & Hg).
  exists g. unfold invoke. by rewrite Hnew.
Qed.

(** The calls of the generators of [names], one after the other, add one
    declaration for each name. *)
Lemma foldl_generated (s : Set_ jen.File) o names f :
  generated_registry s →
  (∀ name, name ∈ names → is_Some (s !! name)) →
  ∃ rest,
    foldl (invoke s o) f names = f ++ rest ∧
    decl_name <$> methods_of_file rest = names ∧
    Forall (λ d, recv_type d = types.Name o ∧ recv_pointer d = true)
      (methods_of_file rest) ∧
    length rest = 2 * length names.
Proof.
  intros Hs. revert f. induction names as [|name names IH]; intros f Hreg.
  - exists []. by rewrite app_nil_r.
  - destruct (invoke_generated s o f name Hs) as (g & Hinv & Hg);
      [apply Hreg; rewrite elem_of_cons; by left|].
    destruct (generate_shape g f o) as (stmt & d & Hgen & Hread & Hn & _ & Hp & Ht).
    destruct (IH (invoke s o f name)) as (rest & Hrest & Hnames & Hall & Hlen).
    { intros n Hin. apply Hreg. rewrite elem_of_cons. by right. }
    cbn [foldl]. rewrite Hrest, Hinv, Hgen, <-app_assoc.
    eexists. split; [done|].
    rewrite methods_of_file_app. unfold methods_of_file at 1 3.
    cbn [omap list_omap]. rewrite Hread.
    change (read_method [jen.Comment ?t]) with (@None MethodDecl).
    cbn [app fmap list_fmap]. fold (methods_of_file rest).
    split; [by rewrite Hnames, Hn, Hg|].
    split; [by constructor|].
    simpl in *. lia.
Qed.

End generators_more.

Section passes.

Implicit Types (g : Generator) (f : jen.File) (o : types.Object)
  (s : Set_ jen.File).

(** X4: for a registry of the generators of the package under the names
    of their methods, [Write] leaves what the file holds and adds, for each
    name the filter lets through, in increasing order of name, a comment and
    the declaration of the method of that name, with a pointer to the type
    of the object as its receiver; no method is declared twice. *)
Theorem Write_generated_methods s keys f o mf :
  generated_registry s →
  range_order s keys →
  ∃ rest,
    Write keys s f o mf = Some (f ++ rest) ∧
    decl_name <$> methods_of_file rest =
      filter (λ name, mf o name = false) (sort_Strings (map_to_list s).*1) ∧
    NoDup (decl_name <$> methods_of_file rest) ∧
    Forall (λ d, recv_type d = types.Name o ∧ recv_pointer d = true)
      (methods_of_file rest) ∧
    length rest = 2 * length (methods_of_file rest).
Proof.
  intros Hs Hk. rewrite (Write_spec keys) by done.
  destruct (foldl_generated s o (written_names s o mf) f Hs)
    as (rest & Hrest & Hnames & Hall & Hlen).
  { intros name Hin. by apply elem_of_written_names in Hin as [? _]. }
  exists rest. split; [by rewrite Hrest|]. split; [done|].
  split; [rewrite Hnames; apply written_names_NoDup|]. split; [done|].
  by rewrite Hlen, <-(length_fmap decl_name), Hnames.
Qed.

(** The members that a file adds to the method set of the pointer to the
    type of an object. *)
Lemma with_file_method_set o f pos :
  ∃ extra,
    pointerMethodSet (with_file o f pos) = pointerMethodSet o ++ extra ∧
    (∀ sel, sel ∈ extra → ∃ k, types.FuncPos (types.Obj sel) = pos k) ∧
    (∀ n ms d, types.Type__ o = types.Named n ms →
       d ∈ methods_of_file f → recv_type d = types.Name o →
       ∃ sel, sel ∈ extra ∧ methodName sel = decl_name d).
Proof.
  unfold pointerMethodSet, with_file. cbn [types.Type__ types.Name].
  destruct (types.Type__ o) as [n ms|t] eqn:Ht.
  - cbn [types.NewPointer types.NewMethodSet]. rewrite fmap_app.
    eexists. split; [done|]. split.
    + intros sel ([obj ptr] & -> & Hin)%list_elem_of_fmap.
      unfold methods_declared in Hin.
      apply elem_of_lookup_imap in Hin as (k & d & Hd & _).
      exists k. by injection Hd as -> _.
    + intros n' ms' d _ Hd Hty.
      assert (d ∈ filter (λ d, recv_type d = types.Name o) (methods_of_file f))
        as [k Hk]%list_elem_of_lookup by by apply list_elem_of_filter.
      exists {| types.Obj := types.MethodObj (declared_method d (pos k)) |}.
      split; [|done]. apply list_elem_of_fmap.
      exists (declared_method d (pos k)). split; [done|].
      unfold methods_declared. apply elem_of_lookup_imap. by exists k, d.
  - exists []. rewrite app_nil_r. split; [done|]. split.
    + intros sel Hin. by apply elem_of_nil in Hin.
    + intros n ms d Hn. discriminate.
Qed.

Lemma DefinedOutside_frame fs F o o' extra name :
  pointerMethodSet o' ≡ₚ pointerMethodSet o ++ extra →
  (∀ sel, sel ∈ extra → declaringFile fs sel = F) →
  DefinedOutside fs F o' name = DefinedOutside fs F o name.
Proof.
  intros Hset Hextra. apply Bool.eq_iff_eq_true.
  rewrite !DefinedOutside_spec. split.
  - intros (sel & Hin & Hn & Hf). rewrite Hset, elem_of_app in Hin.
    destruct Hin as [Hin|Hin]; [by exists sel|]. destruct Hf. by apply Hextra.
  - intros (sel & Hin & Hn & Hf). exists sel. split; [|done].
    rewrite Hset, elem_of_app. by left.
Qed.

(** X5: [DefinedOutside] for the file [F] does not see the members of the
    method set that were declared in [F], nor the order of the members:
    with or without them it answers the same. *)
Theorem DefinedOutside_ignores_target_file fs F o o' extra name :
  pointerMethodSet o' ≡ₚ pointerMethodSet o ++ extra →
  (∀ sel, sel ∈ extra → declaringFile fs sel = F) →
  DefinedOutside fs F o' name = DefinedOutside fs F o name.
Proof. apply DefinedOutside_frame. Qed.

Lemma foldl_invoke_name_only s o o' names f :
  generated_registry s →
  types.Name o = types.Name o' →
  foldl (invoke s o) f names = foldl (invoke s o') f names.
Proof.
  intros Hs Hname. revert f. induction names as [|name names IH]; intros f;
    [done|].
  cbn [foldl]. rewrite IH. f_equal. unfold invoke.
  destruct (s !! name) as [new|] eqn:Hnew; [|done].
  destruct (Hs name new Hnew) as (g & -> & _). by apply generate_name_only.
Qed.

(** X6: generating again into the same file gives the same file: once the
    output of [Write] for the file [F] is part of the package, [Write] for
    [F] on the type with the methods of that output returns the same
    output. *)
Theorem Write_regenerates s keys keys' f o fs F pos out :
  generated_registry s →
  range_order s keys →
  range_order s keys' →
  (∀ k, token.Filename (token.Position_ fs (pos k)) = F) →
  Write keys s f o (DefinedOutside fs F) = Some out →
  Write keys' s f (with_file o out pos) (DefinedOutside fs F) = Some out.
Proof.
  intros Hs Hk Hk' Hpos Hout.
  rewrite (Write_spec keys) in Hout by done.
  rewrite (Write_spec keys') by done. rewrite <-Hout. f_equal.
  destruct (with_file_method_set o out pos) as (extra & Hset & Hextra & _).
  assert (written_names s (with_file o out pos) (DefinedOutside fs F) =
          written_names s o (DefinedOutside fs F)) as ->.
  { apply filter_agree. intros name _.
    rewrite (DefinedOutside_frame fs F o (with_file o out pos) extra); [done| |].
    - by rewrite Hset.
    - intros sel [k Hsel]%Hextra. unfold declaringFile. by rewrite Hsel. }
  by apply foldl_invoke_name_only.
Qed.

(** X7: what was generated into one file is not generated into another:
    once the unfiltered output of [Write] for a named type is part of the
    package in the file [F], [Write] for another file holds back every
    name of the registry and returns its file as it was. *)
Theorem Write_other_file_writes_nothing s keys keys' f f' o n ms fs F G pos out :
  generated_registry s →
  range_order s keys →
  range_order s keys' →
  types.Type__ o = types.Named n ms →
  (∀ k, token.Filename (token.Position_ fs (pos k)) = F) →
  F ≠ G →
  Write keys s f o (λ _ _, false) = Some out →
  Write keys' s f' (with_file o out pos) (DefinedOutside fs G) = Some f'.
Proof.
  intros Hs Hk Hk' Ht Hpos HFG Hout.
  rewrite (Write_spec keys) in Hout by done.
  rewrite (written_names_unfiltered s o (λ _ _, false)) in Hout
    by (intros ? ?; reflexivity).
  destruct (foldl_generated s o (sorted_names s) f Hs)
    as (rest & Hrest & Hnames & Hall & _).
  { intros name. by rewrite elem_of_sorted_names. }
  rewrite Hrest in Hout. injection Hout as <-.
  destruct (with_file_method_set o (f ++ rest) pos)
    as (extra & Hset & Hextra & Hdecl).
  apply Write_nothing_written; [done|].
  intros name Hreg%elem_of_sorted_names. rewrite <-Hnames in Hreg.
  apply list_elem_of_fmap in Hreg as (d & -> & Hd).
  rewrite Forall_forall in Hall. destruct (Hall d Hd) as [Hty _].
  destruct (Hdecl n ms d Ht) as (sel & Hsel & Hname); [|done|].
  { rewrite methods_of_file_app, elem_of_app. by right. }
  apply DefinedOutside_spec. exists sel. split; [|split; [done|]].
  - rewrite Hset, elem_of_app. by right.
  - destruct (Hextra sel Hsel) as [k Hk0]. unfold declaringFile.
    by rewrite Hk0, Hpos.
Qed.

(** X8: the comment that a generator writes before the declaration is the
    name of the method, followed by [of this], the name of the type and a
    full stop, so that it starts with the name it documents. *)
Theorem generate_doc_comment g f o :
  ∃ stmt d,
    generate g f o =
      f ++ [[jen.Comment (method_of g +:+ " of this " +:+ types.Name o +:+ ".")];
            stmt] ∧
    read_method stmt = Some d ∧
    decl_name d = method_of g.
Proof.
  destruct (generate_shape g f o) as (stmt & d & Hgen & Hread & Hname & _).
  by exists stmt, d.
Qed.

(** X9: the Set and the Get generator of a field agree: the setter takes
    one parameter, returns nothing and assigns the parameter to the field;
    the getter takes no parameter and returns that same field, its result
    type being the type of the setter's parameter, a type qualified with
    the configured package. *)
Theorem accessor_pair_agrees (p : FieldPair) o :
  ∃ ds dg x ty tyname,
    methods_of_file (generate (setter_of p) [] o) = [ds] ∧
    methods_of_file (generate (getter_of p) [] o) = [dg] ∧
    decl_name ds = "Set" +:+ field_of p ∧
    decl_name dg = "Get" +:+ field_of p ∧
    decl_params ds = [jen.Id x :: ty] ∧
    decl_result ds = [] ∧
    decl_body ds =
      [[jen.Id (recv_name ds); jen.Dot (parent_of p); jen.Dot (field_of p);
        jen.Op "="; jen.Id x]] ∧
    decl_params dg = [] ∧
    decl_result dg = ty ∧
    decl_body dg =
      [[jen.Return
          [[jen.Id (recv_name dg); jen.Dot (parent_of p);
            jen.Dot (field_of p)]]]] ∧
    recv_name ds = recv_name dg ∧
    last ty = Some (jen.Qual (package_of p) tyname).
Proof.
  destruct p; eexists _, _, _, _, _; repeat split; reflexivity.
Qed.

(** X10: the four generators for the status write a method whose one
    statement calls the method of the same name of the field [Status],
    with the parameters of the method as arguments, a variadic one passed
    on with [...]. *)
Theorem status_methods_delegate g o :
  status_family g = true →
  ∃ d call,
    methods_of_file (generate g [] o) = [d] ∧
    (decl_body d = [call] ∨ decl_body d = [[jen.Return [call]]]) ∧
    call = [jen.Id (recv_name d); jen.Dot fields.NameStatus;
            jen.Dot (decl_name d); jen.Call (pass_through <$> decl_params d)].
Proof.
  intros Hfam. destruct g; try discriminate Hfam;
    (eexists _, _; split; [reflexivity|]; split; [|reflexivity]);
    first [by left | by right].
Qed.

(** X11: for a type whose name ends with [List], the element type that
    [NewSetPortableClassItems] writes is the name without that one suffix:
    for the name [prefix ++ "List"] the slice made is a slice of [prefix]
    and the elements are narrowed to pointers to [prefix], also when
    [prefix] is empty or itself ends with [List]. *)
Theorem NewSetPortableClassItems_with_List (receiver resource prefix : string)
    f o :
  types.Name o = prefix +:+ "List" →
  strings.TrimSuffix (types.Name o) "List" = prefix ∧
  NewSetPortableClassItems receiver resource f o =
    f ++ [
      [jen.Comment ("SetPortableClassItems of this " +:+ types.Name o +:+ ".")];
      [jen.Func;
       jen.Params [[jen.Id receiver; jen.Op "*"; jen.Id (types.Name o)]];
       jen.Id "SetPortableClassItems";
       jen.Params [[jen.Id "i"; jen.Index []; jen.Qual resource "PortableClass"]];
       jen.Block [
         [jen.Id receiver; jen.Dot "Items"; jen.Op "=";
          jen.Make [[jen.Index []; jen.Id prefix]; [jen.Id "0"];
                    [jen.Len [jen.Id "i"]]]];
         [jen.For [[jen.Id "j"; jen.Op ":="; jen.Range; jen.Id "i"]];
          jen.Block [
            [jen.If [
               [jen.List [[jen.Id "actual"]; [jen.Id "ok"]]; jen.Op ":=";
                jen.Id "i"; jen.Index [[jen.Id "j"]];
                jen.Assert [jen.Op "*"; jen.Id prefix]];
               [jen.Id "ok"]];
             jen.Block [
               [jen.Id receiver; jen.Dot "Items"; jen.Op "=";
                jen.Append [[jen.Id receiver; jen.Dot "Items"];
                            [jen.Op "*"; jen.Id "actual"]]]
             ]]
          ]]
       ]]].
Proof.
  intros Hname.
  assert (strings.TrimSuffix (types.Name o) "List" = prefix) as Htrim
    by (rewrite Hname; apply TrimSuffix_suffix).
  split; [done|].
  unfold NewSetPortableClassItems, jen.AddFunc, jen.Commentf.
  rewrite Htrim, <-app_assoc. reflexivity.
Qed.

End passes.

(** ** More on the generated [PortableClassItems] methods *)

Section generated_more.

Import generated.

Context {Elem : Type}.
Variable zero : Elem.
Variable growcap : nat → nat → nat.

Implicit Types (st : @State Elem) (s : Slice) (i items : list PortableClass)
  (h : gmap nat (list Elem)).

Local Ltac run := unfold mbind, M_bind, mret, M_ret.

(** What [SetPortableClassItems] returns: the state in which the narrowed
    values are in a new array. *)
Lemma SetPortableClassItems_run (element : string) i st :
  narrowed_valid element (heap st) i = true →
  SetPortableClassItems zero growcap element i st =
    Some (tt, appended zero (heap st) (fresh (dom (heap st))) (length i)
                (narrowed element (heap st) i)).
Proof.
  intros Hvalid. pose proof (is_fresh (dom (heap st))) as Hb.
  unfold SetPortableClassItems. run. unfold make.
  rewrite decide_True by lia. unfold set_Items. cbn [heap Items].
  rewrite <-(SetPortableClassItems_loop zero growcap element i (heap st)
               (fresh (dom (heap st))) (length i) 0) by done.
  unfold appended. rewrite take_0. cbn [narrowed omap list_omap length app].
  by rewrite Nat.sub_0_r.
Qed.

Lemma appended_contents h b n (vs : list Elem) :
  length vs ≤ n →
  contents (heap (appended zero h b n vs)) (Items (appended zero h b n vs))
    = Some vs.
Proof.
  intros Hlen. unfold contents, appended. cbn [heap Items array len].
  rewrite lookup_insert_eq.
  rewrite decide_True by (rewrite length_app, length_replicate; lia).
  by rewrite drop_0, take_app_length.
Qed.

Lemma assert_pointer_same (element : string) (p : Ptr) :
  assert_pointer element (pointer_to element p) = (p, true).
Proof. unfold assert_pointer. by rewrite String.eqb_refl. Qed.

(** Interface values that hold pointers of type [*element] to the values
    [xs] narrow to exactly [xs]. *)
Lemma narrowed_pointers (element : string) h items (xs : list Elem) :
  Forall2 (λ x v, ∃ p, x = pointer_to element p ∧ deref h p = Some v)
    items xs →
  narrowed element h items = xs ∧ narrowed_valid element h items = true.
Proof.
  unfold narrowed, narrowed_valid.
  induction 1 as [|x v items xs (p & -> & Hp) _ [IH1 IH2]]; [done|].
  csimpl. rewrite !String.eqb_refl, Hp. simpl. rewrite IH1. split; [done|].
  exact IH2.
Qed.

(** The views of a slice point to its elements. *)
Lemma views_contents (element : string) h s (xs : list Elem) :
  contents h s = Some xs →
  Forall2 (λ x v, ∃ p, x = pointer_to element p ∧ deref h p = Some v)
    (views element s (seq 0 (len s))) xs.
Proof.
  unfold contents. intros Hxs.
  apply Forall2_same_length_lookup. 
  destruct (array s) as [[b off]|] eqn:Harr.
  - destruct (h !! b) as [blk|] eqn:Hblk; [|done].
    case_decide; [|done]. simplify_eq. split.
    + rewrite views_length, length_seq, length_take, length_drop. lia.
    + intros k x v Hx Hv.
      pose proof (lookup_lt_Some _ _ _ Hx) as Hk.
      rewrite views_length, length_seq in Hk.
      rewrite views_lookup in Hx by done. simplify_eq.
      eexists. split; [done|]. unfold element_addr, deref. rewrite Harr.
      rewrite lookup_take_lt, lookup_drop in Hv by done.
      by rewrite Hblk.
  - case_decide; [|done]. simplify_eq. split.
    + rewrite views_length, length_seq. simpl. lia.
    + intros k x v _ Hv. done.
Qed.

(** A store that keeps the arrays of [h] keeps what narrows in [h]. *)
Lemma narrowed_frame (element : string) h h' i :
  (∀ b blk, h !! b = Some blk → h' !! b = Some blk) →
  narrowed_valid element h i = true →
  narrowed element h' i = narrowed element h i ∧
  narrowed_valid element h' i = true.
Proof.
  intros Hsub. unfold narrowed, narrowed_valid.
  induction i as [|x i IH]; intros Hv; [done|].
  simpl in Hv. apply andb_true_iff in Hv as [Hx Hv].
  destruct (IH Hv) as [IH1 IH2]. csimpl.
  destruct (assert_pointer element x) as [p [|]] eqn:Hp; [|by rewrite IH1].
  apply bool_decide_eq_true in Hx as [v Hd].
  assert (deref h' p = Some v) as Hd'.
  { unfold deref in *. destruct p as [[b k]|]; [|done].
    destruct (h !! b) as [blk|] eqn:Hblk; [|done].
    by rewrite (Hsub b blk Hblk). }
  rewrite Hd, Hd'. simpl. rewrite IH1. split; [done|]. exact IH2.
Qed.

Lemma appended_keeps h b n (vs : list Elem) :
  b ∉ dom h →
  ∀ b' blk, h !! b' = Some blk → heap (appended zero h b n vs) !! b' = Some blk.
Proof.
  intros Hb b' blk Hblk. unfold appended. cbn [heap].
  rewrite lookup_insert_ne; [done|].
  intros ->. apply Hb, elem_of_dom. by eexists.
Qed.





End generated_more.

Section generated_growth.

Import generated.

Context {Elem : Type}.


End generated_growth.

(** ** The further theorems at concrete inputs *)

Section more_examples_facts.

Import examples more_examples.

Lemma bucket_registry_generated : generated_registry bucket_registry.
Proof.
  intros name new Hnew. unfold bucket_registry in Hnew.
  apply lookup_insert_Some in Hnew as [[<- <-]|[_ Hnew]];
    [by exists (SetConditions "b" "runtime")|].
  apply lookup_insert_Some in Hnew as [[<- <-]|[_ Hnew]];
    [by exists (GetBindingPhase "b" "runtime")|].
  apply lookup_singleton_Some in Hnew as [<- <-].
  by exists (SetBindingPhase "b" "runtime").
Qed.

Lemma Write_all_filtered_witness :
  Write ["SetConditions"; "SetBindingPhase"; "GetBindingPhase"]
    bucket_registry [] bucket (λ _ _, true) = Some [].
Proof.
  apply (Write_all_filtered bucket_registry _ [] bucket (λ _ _, true)
           bucket_registry_order).
  intros name _. reflexivity.
Defined.

Lemma foo_registry_filtered_order :
  range_order
    (filter (λ kv : string * New (list string), no_GetFoo bucket kv.1 = false)
       foo_registry)
    ["SetFoo"; "AddFoo"].
Proof. unfold range_order. apply (bool_decide_unpack _). vm_compute. exact I. Defined.

Lemma Write_filter_restricts_witness :
  Write ["SetFoo"; "AddFoo"; "GetFoo"] foo_registry [] bucket no_GetFoo =
  Write ["SetFoo"; "AddFoo"]
    (filter (λ kv : string * New (list string), no_GetFoo bucket kv.1 = false)
       foo_registry)
    [] bucket (λ _ _, false).
Proof.
  exact (Write_filter_restricts foo_registry _ _ [] bucket no_GetFoo
           foo_registry_order foo_registry_filtered_order).
Defined.

Lemma foo_union_order :
  range_order (foo_first ∪ foo_second) ["SetFoo"; "AddFoo"; "GetFoo"].
Proof. unfold range_order. apply (bool_decide_unpack _). vm_compute. exact I. Defined.

Lemma foo_first_order : range_order foo_first ["GetFoo"; "AddFoo"].
Proof. unfold range_order. apply (bool_decide_unpack _). vm_compute. exact I. Defined.

Lemma foo_second_order : range_order foo_second ["SetFoo"].
Proof. unfold range_order. apply (bool_decide_unpack _). vm_compute. exact I. Defined.

Lemma Write_union_in_order_witness :
  Write ["SetFoo"; "AddFoo"; "GetFoo"] (foo_first ∪ foo_second) [] bucket
    no_GetFoo =
  Write ["GetFoo"; "AddFoo"] foo_first [] bucket no_GetFoo
    ≫= λ f1, Write ["SetFoo"] foo_second f1 bucket no_GetFoo.
Proof.
  apply (Write_union_in_order foo_first foo_second _ _ _ [] bucket no_GetFoo
           foo_union_order foo_first_order foo_second_order).
  apply (bool_decide_unpack _). vm_compute. exact I.
Defined.

Lemma Write_generated_methods_witness :
  ∃ rest,
    Write ["SetConditions"; "SetBindingPhase"; "GetBindingPhase"]
      bucket_registry [] bucket_with_methods
      (DefinedOutside file_set "zz_generated.go") = Some ([] ++ rest) ∧
    decl_name <$> methods_of_file rest = ["GetBindingPhase"; "SetBindingPhase"].
Proof.
  destruct (Write_generated_methods bucket_registry
              ["SetConditions"; "SetBindingPhase"; "GetBindingPhase"] []
              bucket_with_methods (DefinedOutside file_set "zz_generated.go")
              bucket_registry_generated bucket_registry_order)
    as (rest & Hrest & Hnames & _).
  exists rest. split; [exact Hrest|]. rewrite Hnames. vm_compute. reflexivity.
Defined.

Lemma DefinedOutside_ignores_target_file_witness :
  DefinedOutside file_set "zz_generated.go" bucket_with_methods "GetBindingPhase"
  = DefinedOutside file_set "zz_generated.go" bucket_hand_written
      "GetBindingPhase".
Proof.
  apply (DefinedOutside_ignores_target_file file_set "zz_generated.go"
           bucket_hand_written bucket_with_methods [generated_member]).
  - reflexivity.
  - intros sel Hsel. apply list_elem_of_singleton in Hsel. rewrite Hsel.
    reflexivity.
Defined.

Lemma first_pass_written :
  Write ["SetConditions"; "SetBindingPhase"; "GetBindingPhase"]
    bucket_registry [] bucket_hand_written
    (DefinedOutside file_set "zz_generated.go") = Some first_pass.
Proof. vm_compute. reflexivity. Qed.

Lemma first_pass_all_written :
  Write ["SetConditions"; "SetBindingPhase"; "GetBindingPhase"]
    bucket_registry [] bucket (λ _ _, false) = Some first_pass_all.
Proof. vm_compute. reflexivity. Qed.

Lemma Write_regenerates_witness :
  Write ["GetBindingPhase"; "SetConditions"; "SetBindingPhase"]
    bucket_registry [] (with_file bucket_hand_written first_pass generated_pos)
    (DefinedOutside file_set "zz_generated.go") = Some first_pass.
Proof.
  apply (Write_regenerates bucket_registry
           ["SetConditions"; "SetBindingPhase"; "GetBindingPhase"] _ []
           bucket_hand_written file_set "zz_generated.go" generated_pos
           first_pass bucket_registry_generated bucket_registry_order).
  - unfold range_order. apply (bool_decide_unpack _). vm_compute. exact I.
  - intros k. reflexivity.
  - exact first_pass_written.
Defined.

Lemma Write_other_file_writes_nothing_witness :
  Write ["GetBindingPhase"; "SetConditions"; "SetBindingPhase"]
    bucket_registry [] (with_file bucket first_pass_all generated_pos)
    (DefinedOutside file_set "manual.go") = Some [].
Proof.
  apply (Write_other_file_writes_nothing bucket_registry
           ["SetConditions"; "SetBindingPhase"; "GetBindingPhase"] _ [] []
           bucket "Bucket" [] file_set "zz_generated.go" "manual.go"
           generated_pos first_pass_all bucket_registry_generated
           bucket_registry_order).
  - unfold range_order. apply (bool_decide_unpack _). vm_compute. exact I.
  - reflexivity.
  - intros k. reflexivity.
  - discriminate.
  - exact first_pass_all_written.
Defined.

Lemma status_methods_delegate_witness :
  ∃ d call,
    methods_of_file (generate (GetBindingPhase "b" "runtime") [] bucket) = [d] ∧
    (decl_body d = [call] ∨ decl_body d = [[jen.Return [call]]]) ∧
    call = [jen.Id (recv_name d); jen.Dot fields.NameStatus;
            jen.Dot (decl_name d); jen.Call (pass_through <$> decl_params d)].
Proof.
  exact (status_methods_delegate (GetBindingPhase "b" "runtime") bucket eq_refl).
Defined.

Lemma NewSetPortableClassItems_with_List_witness :
  strings.TrimSuffix "BucketList" "List" = "Bucket".
Proof.
  exact (proj1 (NewSetPortableClassItems_with_List "b" "resource" "Bucket" []
                  {| types.Name := "BucketList";
                     types.Type__ := types.Named "BucketList" [] |}
                  eq_refl)).
Defined.






End more_examples_facts.
